(** * Pen plotter: path resampling, kinematics solver, stepper driver and
      the coordination task

    A shallow embedding of [main.py], [stepperdriver.py] and
    [actuator.py].

    Conventions of the embedding.
    - Python integers are [Z]; bytes of a [bytearray] are [Z] in [0, 256).
    - Floats carry their real-number meaning.  The resampler only halves
      integers, so its floats are exact rationals ([Q], kept in lowest terms
      so that equal numbers are equal terms).  The solver and the angle
      conversions use [math.pi], [cos] and [sin], so their floats are [R].
    - A Python exception is an explicit error result. *)

From Stdlib Require Import ZArith QArith Qround List Bool Lia Lqa.
From Stdlib Require Import Reals Qreals Lra.
From Stdlib Require String Ascii.
From Stdlib Require DecimalString DecimalZ DecimalPos.
Import ListNotations.

(* ================================================================== *)
(** ** The interpolation loop of [startup] (main.py, lines 21-31, 144-211) *)
(* ================================================================== *)

Module Resampler.

Local Open Scope Q_scope.

(** The first field of a [STEPS] tuple: ['PU'] or ['PD'].  The parser of
    [startup] appends no other tuples. *)
Inductive PenKind : Set := PU | PD.


(** [('PU', x, y)], the element type of [STEPS]. *)
Record RawCommand : Set := mkRaw { rkind : PenKind; rx : Z; ry : Z }.

(** One line ["PD, x, y\r\n"] of Interpolated.txt. *)
Record Waypoint : Set := mkWp { wkind : PenKind; wx : Q; wy : Q }.

Definition N : Z := 3.
Definition max_dist : Z := 10.

(** [range(k)] *)
Definition range (k : Z) : list Z := map Z.of_nat (seq 0 (Z.to_nat k)).

(** [linspace(a,b,n)]: [diff = (b-a)/(n-1)], then
    [[diff*i+a for i in range(n-1)]].  [None] is the ZeroDivisionError of
    [n = 1]. *)
Definition linspace (a b n : Z) : option (list Q) :=
  if (n - 1 =? 0)%Z then None
  else
    let diff := inject_Z (b - a) / inject_Z (n - 1) in
    Some (map (fun i => Qred (diff * inject_Z i + inject_Z a)) (range (n - 1))).

(** [next_dist ** 2]: the quantity under the square root. *)
Definition next_dist2 (coords nextstep : RawCommand) : Z :=
  ((rx nextstep - rx coords) ^ 2 + (ry nextstep - ry coords) ^ 2)%Z.

(** [next_dist > max_dist], decided on the squares. *)
Definition too_far (coords nextstep : RawCommand) : bool :=
  (max_dist ^ 2 <? next_dist2 coords nextstep)%Z.

(** The point written unchanged: [f"PU, {coords[1]}, {coords[2]}"]. *)
Definition unchanged (c : RawCommand) : Waypoint :=
  mkWp (rkind c) (inject_Z (rx c)) (inject_Z (ry c)).

(** The [for i,j in zip(xA,yA)] loop of the 'PU' branch, with its [first]
    flag: the first pair is written as PU, the others as PD. *)
Definition write_first_up (xy : list (Q * Q)) : list Waypoint :=
  match xy with
  | [] => []
  | (i, j) :: rest => mkWp PU i j :: map (fun p => mkWp PD (fst p) (snd p)) rest
  end.

(** The same loop of the 'PD' branch: every pair is written as PD. *)
Definition write_all_down (xy : list (Q * Q)) : list Waypoint :=
  map (fun p => mkWp PD (fst p) (snd p)) xy.

(** [linspace] on both coordinates, zipped. *)
Definition interpolated (coords nextstep : RawCommand) : option (list (Q * Q)) :=
  match linspace (rx coords) (rx nextstep) N,
        linspace (ry coords) (ry nextstep) N with
  | Some xA, Some yA => Some (combine xA yA)
  | _, _ => None
  end.

(** What went wrong in an iteration. *)
Inductive failure : Set := IndexError | ZeroDivisionError.

(** The body of [for idx, coords in enumerate(STEPS)]: the lines it writes. *)
Definition body (STEPS : list RawCommand) (idx : nat) (coords : RawCommand)
  : failure + list Waypoint :=
  match rkind coords with
  | PU =>
      if (idx + 1 <? length STEPS)%nat then
        match nth_error STEPS (idx + 1) with
        | None => inl IndexError
        | Some nextstep =>
            if too_far coords nextstep then
              match interpolated coords nextstep with
              | None => inl ZeroDivisionError
              | Some xy => inr (write_first_up xy)
              end
            else inr [unchanged coords]
        end
      else inr [unchanged coords]
  | PD =>
      match nth_error STEPS (idx + 1) with
      | None => inl IndexError
      | Some nextstep =>
          match rkind nextstep with
          | PD =>
              if too_far coords nextstep then
                match interpolated coords nextstep with
                | None => inl ZeroDivisionError
                | Some xy => inr (write_all_down xy)
                end
              else inr [unchanged coords]
          | PU => inr [unchanged coords]
          end
      end
  end.

(** The state of Interpolated.txt when the loop ends or is aborted. *)
Inductive outcome : Set :=
| Finished (written : list Waypoint)
| Raised (e : failure) (written : list Waypoint).

Definition written (o : outcome) : list Waypoint :=
  match o with Finished w | Raised _ w => w end.

(** The loop, from index [idx] on, [todo] being what [enumerate] has left. *)
Fixpoint interp_loop (STEPS : list RawCommand) (idx : nat)
    (todo : list RawCommand) (file : list Waypoint) : outcome :=
  match todo with
  | [] => Finished file
  | coords :: rest =>
      match body STEPS idx coords with
      | inl e => Raised e file
      | inr ws => interp_loop STEPS (S idx) rest (file ++ ws)
      end
  end.

Definition interpolate (STEPS : list RawCommand) : outcome :=
  interp_loop STEPS 0 STEPS [].

(** [elements], the number of lines written. *)
Definition elements (o : outcome) : nat := length (written o).

End Resampler.

(* ================================================================== *)
(** ** The solver: [g], [dg_dtheta], [NewtonRaphson] and the solve loop of
       [startup] (main.py, lines 34-77, 226-286) *)
(* ================================================================== *)

Module Kinematics.

Local Open Scope R_scope.

(** A 2x1 [np.array]: [v0] is [theta[0][0]], [v1] is [theta[1][0]]. *)
Record vec2 : Type := mkVec { v0 : R; v1 : R }.

(** A 2x2 [np.array], by rows. *)
Record mat2 : Type := mkMat { m00 : R; m01 : R; m10 : R; m11 : R }.

Definition vsub (a b : vec2) : vec2 := mkVec (v0 a - v0 b) (v1 a - v1 b).

(** [np.dot] of a 2x2 and a 2x1 array. *)
Definition dot (m : mat2) (v : vec2) : vec2 :=
  mkVec (m00 m * v0 v + m01 m * v1 v) (m10 m * v0 v + m11 m * v1 v).

Definition det (m : mat2) : R := m00 m * m11 m - m01 m * m10 m.

(** [np.linalg.inv]; [None] is the error it raises on a singular matrix. *)
Definition inv (m : mat2) : option mat2 :=
  if Req_dec_T (det m) 0 then None
  else Some (mkMat (m11 m / det m) (- m01 m / det m)
                   (- m10 m / det m) (m00 m / det m)).

(** The array [f] built inside [g]: where the pen is for motor angles
    [theta]. *)
Definition f (theta : vec2) : vec2 :=
  mkVec (((4 / PI) * v1 theta) * cos (v0 theta / 3))
        (((4 / PI) * v1 theta) * sin (v0 theta / 3)).

(** [g(x, theta)] returns [x - f]. *)
Definition g (x theta : vec2) : vec2 := vsub x (f theta).

Definition dg_dtheta (theta : vec2) : mat2 :=
  mkMat ((1 / 3) * ((4 / PI) * v1 theta) * sin (v0 theta / 3))
        ((- 4 / PI) * cos (v0 theta / 3))
        ((- 1 / 3) * ((4 / PI) * v1 theta) * cos (v0 theta / 3))
        ((- 4 / PI) * sin (v0 theta / 3)).

(** The test of the [if] inside the loop of [NewtonRaphson]. *)
Definition below (gv : vec2) (thresh : R) : bool :=
  (if Rle_dec (Rabs (v0 gv)) thresh then true else false)
  && (if Rle_dec (Rabs (v1 gv)) thresh then true else false).

(** The [else] branch: [theta_n - np.dot(np.linalg.inv(jacobian(theta_n)),g)]. *)
Definition update (fcn : vec2 -> vec2) (jacobian : vec2 -> mat2)
    (theta_n : vec2) : option vec2 :=
  match inv (jacobian theta_n) with
  | None => None
  | Some Ji => Some (vsub theta_n (dot Ji (fcn theta_n)))
  end.

(** How a call of [NewtonRaphson] ends.  The loop of the source has no
    iteration cap; the embedding runs at most [fuel] iterations and says so
    when they are used up. *)
Inductive nr_result : Type :=
| Returned (theta : vec2)
| SingularMatrix
| StillRunning.

Fixpoint NewtonRaphson (fuel : nat) (fcn : vec2 -> vec2)
    (jacobian : vec2 -> mat2) (guess : vec2) (thresh : R) : nr_result :=
  match fuel with
  | O => StillRunning
  | S fuel' =>
      let theta_n := guess in
      let gv := fcn theta_n in
      if below gv thresh then Returned theta_n
      else
        match update fcn jacobian theta_n with
        | None => SingularMatrix
        | Some theta' => NewtonRaphson fuel' fcn jacobian theta' thresh
        end
  end.

(** Python's [x % y] on floats, for [y > 0]: [x - y * floor(x / y)]. *)
Definition fmod (x y : R) : R := x - IZR (Int_part (x / y)) * y.

(** One line of Send.txt: [f"{loc}, {th1}, {th2}, {xS}, {yS}, {th}"]. *)
Record MotionCommand : Type := mkCmd {
  loc : Resampler.PenKind;
  th1 : R;
  th2 : R;
  xS : R;
  yS : R;
  th : R
}.

Definition xSCALE : R := 1 / 40.
Definition xOFFSET : R := - 70.
Definition ySCALE : R := 1 / 40.
Definition yOFFSET : R := - 500.

(** [guess], the start of the first run. *)
Definition guess : vec2 := mkVec (3 * PI / 2) (110 * 2 * PI / 8).

(** Send.txt when the solve loop ends or is aborted. *)
Inductive solve_outcome : Type :=
| Solved (send : list MotionCommand)
| SolveRaised (send : list MotionCommand)
| SolveStillRunning (send : list MotionCommand).

Definition sent (o : solve_outcome) : list MotionCommand :=
  match o with Solved s | SolveRaised s | SolveStillRunning s => s end.

(** [x_des] for the line [w] of Interpolated.txt: offsets applied. *)
Definition x_des (w : Resampler.Waypoint) : vec2 :=
  let x := Q2R (Resampler.wx w) in
  let y := Q2R (Resampler.wy w) in
  let xS := xSCALE * x + xOFFSET in
  let yS := ySCALE * y + yOFFSET in
  mkVec xS yS.

(** The line written for [w] once [NewtonRaphson] has returned [theta]. *)
Definition line_of (w : Resampler.Waypoint) (theta : vec2) : MotionCommand :=
  let th1 := fmod (v0 theta) (2 * PI) in
  let th2 := v1 theta in
  let th := th1 / 3 in
  mkCmd (Resampler.wkind w) th1 th2 (v0 (x_des w)) (v1 (x_des w)) th.

(** [while i < elements], from the line [i] on; [theta_guess] is [guess]
    when [i = 0] and the [(th1, th2)] of the line before otherwise. *)
Fixpoint solve_loop (fuel : nat) (lines : list Resampler.Waypoint)
    (theta_guess : vec2) (send : list MotionCommand) : solve_outcome :=
  match lines with
  | [] => Solved send
  | w :: rest =>
      match NewtonRaphson fuel (fun theta => g (x_des w) theta) dg_dtheta
              theta_guess (1 / 1000) with
      | Returned theta =>
          let c := line_of w theta in
          solve_loop fuel rest (mkVec (th1 c) (th2 c)) (send ++ [c])
      | SingularMatrix => SolveRaised send
      | StillRunning => SolveStillRunning send
      end
  end.

(** The second half of [startup], on the lines the first half wrote. *)
Definition solve (fuel : nat) (lines : list Resampler.Waypoint) : solve_outcome :=
  solve_loop fuel lines guess [].

End Kinematics.

(* ================================================================== *)
(** ** [StepperDriver] (stepperdriver.py) with a simulated TMC4210 *)
(* ================================================================== *)

Module Driver.

Import Stdlib.Strings.String.
Local Open Scope string_scope.
Local Open Scope Z_scope.

(** Register addresses, as [__init__] names them. *)
Definition X_TARGET : Z := 0.
Definition X_ACTUAL : Z := 1.
Definition A_MAX : Z := 6.
Definition PMUL_PDIV : Z := 9.
Definition RAMP_MODE : Z := 10.

(** The driver object together with what it talks to: the two 4-byte
    buffers, the chip behind the chip-select pin, every datagram clocked out
    so far (oldest first) and what [print] wrote. *)
Record state : Type := mkState {
  TX_buf : list Z;
  RX_buf : list Z;
  regs : Z -> Z;
  wire : list (list Z);
  console : list string
}.

(** [buf[i] = v].  Every value the methods below store in a buffer is a
    constant or masked to 8 bits, so the ValueError of a [bytearray] for a
    value outside [range(256)] does not arise. *)
Fixpoint setitem (i : nat) (v : Z) (buf : list Z) : list Z :=
  match buf, i with
  | [], _ => []
  | _ :: tl, O => v :: tl
  | b :: tl, S j => b :: setitem j v tl
  end.

Definition getitem (i : nat) (buf : list Z) : Z := nth i buf 0.

Definition set_TX (i : nat) (v : Z) (s : state) : state :=
  mkState (setitem i v (TX_buf s)) (RX_buf s) (regs s) (wire s) (console s).

Definition print (line : string) (s : state) : state :=
  mkState (TX_buf s) (RX_buf s) (regs s) (wire s) (console s ++ [line]).

(** [(b1 << 16) | (b2 << 8) | b3], the payload of a datagram or of a reply. *)
Definition payload (buf : list Z) : Z :=
  Z.lor (Z.lor (Z.shiftl (getitem 1 buf) 16) (Z.shiftl (getitem 2 buf) 8))
        (getitem 3 buf).

(** The simulated chip, which stands for the hardware behind
    [spi.send_recv]: a file of 24-bit registers.  Byte 0 of a datagram is
    [(address << 1) | access], as the methods of the driver build it; a
    write (access 0) stores bytes 1-3 and leaves the receive buffer alone,
    a read (access 1) answers with the stored value in bytes 1-3 of the
    reply. *)
Definition chip_exchange (r : Z -> Z) (tx : list Z) : (Z -> Z) * option (list Z) :=
  let address := Z.shiftr (getitem 0 tx) 1 in
  if Z.testbit (getitem 0 tx) 0 then
    let v := r address in
    (r, Some [0; Z.land (Z.shiftr v 16) 255; Z.land (Z.shiftr v 8) 255;
              Z.land v 255])
  else
    ((fun a => if a =? address then payload tx else r a), None).

(** [self.nCS.low(); self.spi.send_recv(self.TX_buf, self.RX_buf);
    self.nCS.high()] *)
Definition transaction (s : state) : state :=
  let (r, reply) := chip_exchange (regs s) (TX_buf s) in
  mkState (TX_buf s)
          (match reply with Some rx => rx | None => RX_buf s end)
          r (wire s ++ [TX_buf s]) (console s).

(** The four assignments to [TX_buf] that open every method, then the
    transaction. *)
Definition send_datagram (b0 b1 b2 b3 : Z) (s : state) : state :=
  transaction (set_TX 3 b3 (set_TX 2 b2 (set_TX 1 b1 (set_TX 0 b0 s)))).

(** How a call of a method ends: [inr] with the state it leaves when it
    returns, [inl] when it raises. *)
Inductive error : Set := ZeroDivisionError | BudgetUsedUp.

(** [set_mode(mode)].  Every path ends by falling off the end of the
    method. *)
Definition set_mode (mode : string) (s : state) : error + state :=
  if String.eqb mode "ramp" then
    inr (print "Setting to ramp mode."
           (send_datagram (Z.lor (Z.shiftl RAMP_MODE 1) 0) 0 4 0 s))
  else if String.eqb mode "hold" then
    inr (print "Setting to hold mode."
           (send_datagram (Z.lor (Z.shiftl RAMP_MODE 1) 0) 0 4 3 s))
  else if String.eqb mode "velocity" then
    inr (print "Setting to velocity mode."
           (send_datagram (Z.lor (Z.shiftl RAMP_MODE 1) 0) 0 4 2 s))
  else if String.eqb mode "soft" then
    inr (print "Setting to soft mode."
           (send_datagram (Z.lor (Z.shiftl RAMP_MODE 1) 0) 0 4 1 s))
  else inr (print "Invalid mode." s).

(** *** [set_accel] *)

(** [len(pd)] for [pd = range(14)], [len(pm)] for [pm = range(128,256)]. *)
Definition len_pd : Z := 14.
Definition len_pm : Z := 256 - 128.

(** [q = (pmul/max_accel)*2**(4-pdiv)] *)
Definition q_of (max_accel pmul pdiv : Z) : Q :=
  (inject_Z pmul / inject_Z max_accel * Qpower 2 (4 - pdiv))%Q.

(** [q>0.95 and q<1] *)
Definition q_valid (q : Q) : bool :=
  negb (Qle_bool q (95 # 100)) && negb (Qle_bool 1 q).

(** The inner [while pdiv<len(pd)]: the final [pdiv], and whether the loop
    was left by [break] with [valid = 1].  [None]: the iteration budget of
    the embedding is used up (it never is: [DriverProofs.pdiv_loop_spec]). *)
Fixpoint pdiv_loop (budget : nat) (max_accel pmul pdiv : Z) : option (Z * bool) :=
  match budget with
  | O => None
  | S budget' =>
      if pdiv <? len_pd then
        if q_valid (q_of max_accel pmul pdiv) then Some (pdiv, true)
        else pdiv_loop budget' max_accel pmul (pdiv + 1)
      else Some (pdiv, false)
  end.

(** The outer [while pmul<len(pm)+128]: the final [pmul], [pdiv], [valid]. *)
Fixpoint pmul_loop (budget : nat) (max_accel pmul pdiv : Z) (valid : bool)
  : option (Z * Z * bool) :=
  match budget with
  | O => None
  | S budget' =>
      if pmul <? len_pm + 128 then
        match pdiv_loop 15 max_accel pmul 0 with
        | None => None
        | Some (pdiv', true) => Some (pmul, pdiv', true)
        | Some (pdiv', false) =>
            pmul_loop budget' max_accel (pmul + 1) pdiv' false
        end
      else Some (pmul, pdiv, valid)
  end.

(** [set_accel(max_accel)].  The first evaluation of [q] divides by
    [max_accel]; otherwise nothing in the method can raise. *)
Definition set_accel (max_accel : Z) (s : state) : error + state :=
  if max_accel =? 0 then inl ZeroDivisionError
  else
    match pmul_loop 129 max_accel 128 0 false with
    | None => inl BudgetUsedUp
    | Some (pmul, pdiv, _) =>
        let s := send_datagram (Z.lor (Z.shiftl PMUL_PDIV 1) 0) 0
                   (Z.lor 128 (Z.land pmul 127)) (Z.land pdiv 15) s in
        inr (send_datagram (Z.lor (Z.shiftl A_MAX 1) 0) 0
               (Z.land (Z.shiftr max_accel 8) 7) (Z.land max_accel 255) s)
    end.

(** *** Positions *)

(** [int(x)] of a float: truncation towards zero. *)
Definition py_int (x : R) : Z :=
  if Rle_dec 0 x then Int_part x else - Int_part (- x).

(** [set_target_pos(target_pos)] *)
Definition set_target_pos (target_pos : R) (s : state) : state :=
  let target_pos := (target_pos * ((8 * 48) / (2 * PI)))%R in
  let target_pos := py_int target_pos in
  send_datagram (Z.lor (Z.shiftl X_TARGET 1) 0)
    (Z.land (Z.shiftr target_pos 16) 255)
    (Z.land (Z.shiftr target_pos 8) 255)
    (Z.land target_pos 255) s.

(** [get_target_pos()]: the value returned, and the state after the read. *)
Definition get_target_pos (s : state) : R * state :=
  let s := send_datagram (Z.lor (Z.shiftl X_TARGET 1) 1) 0 0 0 s in
  let target_pos := payload (RX_buf s) in
  ((IZR target_pos * ((2 * PI) / (8 * 48)))%R, s).

(** [get_pos()] *)
Definition get_pos (s : state) : R * state :=
  let s := send_datagram (Z.lor (Z.shiftl X_ACTUAL 1) 1) 0 0 0 s in
  let actual_pos := payload (RX_buf s) in
  ((IZR actual_pos * ((2 * PI) / (8 * 48)))%R, s).

(** [arrived(tolerance)] *)
Definition arrived (tolerance : R) (s : state) : bool * state :=
  let (p, s) := get_pos s in
  let (t, s) := get_target_pos s in
  ((if Rle_dec (Rabs (p - t)) tolerance then true else false), s).

(** A driver whose buffers are the fresh [bytearray(4)] of [__init__], in
    front of a chip whose registers all hold 0. *)
Definition fresh : state := mkState [0; 0; 0; 0] [0; 0; 0; 0] (fun _ => 0) [] [].

End Driver.

(* ================================================================== *)
(** ** [task_main] (main.py, lines 288-375) *)
(* ================================================================== *)

Module Coordination.

Import Stdlib.Strings.String.
Import Resampler Kinematics.
Local Open Scope string_scope.
Local Open Scope list_scope.
Local Open Scope Z_scope.

Definition S0_INIT : Z := 0.
Definition S1_PLOT : Z := 1.
Definition S2_DONE : Z := 2.

Inductive motor : Set := motor1 | motor2.

(** What one pass of the [while True] loop does to the world outside the
    generator, in program order. *)
Inductive action : Type :=
| PrintLine (msg : string)
| OpenSend
| ReadLine
| CloseSend
| UartWrite (xS yS th : R)
| PenUp
| PenDown
| SetTargetPos (m : motor) (target_pos : R)
| Arrived (m : motor) (answer : bool).

(** The local variables of the generator that live across a [yield].
    [send] holds the lines of Send.txt not read yet; [data] is the line the
    names [pen_CMD], [m1_CMD], [m2_CMD], [xS], [yS], [th] were last bound
    from, [None] while they are unbound. *)
Record locals : Type := mkLocals {
  state : Z;
  step : Z;
  pen_is_up : bool;
  update : bool;
  send : list MotionCommand;
  data : option MotionCommand;
  printed : bool
}.

(** [motor1.arrived(pos_tolerance) and motor2.arrived(pos_tolerance)] for the
    answers [arr] the two motors give in this pass; [and] asks motor 2 only
    when motor 1 has arrived. *)
Definition both_arrived (arr : bool * bool) : bool * list action :=
  if fst arr then (snd arr, [Arrived motor1 true; Arrived motor2 (snd arr)])
  else (false, [Arrived motor1 false]).

(** The two [set_target_pos] calls, then
    [if ... arrived ... and ... arrived ...: step+=1; update = True]. *)
Definition targets_then_advance (arr : bool * bool) (c : MotionCommand)
    (l : locals) : locals * list action :=
  let (ok, asked) := both_arrived arr in
  let acts := [SetTargetPos motor1 (th1 c); SetTargetPos motor2 (th2 c)] ++ asked in
  if ok then
    (mkLocals (state l) (step l + 1) (pen_is_up l) true (send l) (data l)
       (printed l), acts)
  else (l, acts).

(** The four-way [if]/[elif] on [pen_CMD] and [pen_is_up]. *)
Definition dispatch (arr : bool * bool) (c : MotionCommand) (l : locals)
  : locals * list action :=
  match loc c, pen_is_up l with
  | PU, false =>
      let l := mkLocals (state l) (step l) true (update l) (send l) (data l)
                 (printed l) in
      let (l, acts) := targets_then_advance arr c l in
      (l, PenUp :: acts)
  | PU, true => targets_then_advance arr c l
  | PD, true =>
      (mkLocals (state l) (step l) false (update l) (send l) (data l)
         (printed l),
       [PenDown; SetTargetPos motor1 (th1 c); SetTargetPos motor2 (th2 c)])
  | PD, false => targets_then_advance arr c l
  end.

(** [if update == True: ...]: read and unpack the next line.  [None]: the
    ValueError of unpacking the empty line at the end of the file. *)
Definition fetch (l : locals) : option (locals * list action) :=
  if update l then
    match send l with
    | [] => None
    | c :: rest =>
        Some (mkLocals (state l) (step l) (pen_is_up l) false rest (Some c)
                (printed l),
              [PrintLine "Send coordinate updated"; ReadLine;
               UartWrite (xS c) (yS c) (th c)])
    end
  else Some (l, []).

(** One pass of [while True], up to its [yield state].  [elements] is
    [elements.get()]; [arr] is what the motors would answer to [arrived] in
    this pass.  [None]: the pass raises. *)
Definition task_main (elements : Z) (arr : bool * bool) (l : locals)
  : option (locals * list action) :=
  if state l =? S0_INIT then
    Some (mkLocals S1_PLOT 0 false true (send l) (data l) (printed l),
          [OpenSend])
  else if state l =? S1_PLOT then
    if step l <? elements - 1 then
      match fetch l with
      | None => None
      | Some (l, fetched) =>
          match data l with
          | None => None
          | Some c =>
              let (l, acts) := dispatch arr c l in
              Some (l, fetched ++ acts)
          end
      end
    else if step l =? elements - 1 then
      Some (mkLocals S2_DONE (step l) (pen_is_up l) (update l) (send l)
              (data l) false,
            [PrintLine "All done!"; PenUp;
             SetTargetPos motor1 (3 * 4 * PI / 9)%R;
             SetTargetPos motor2 (105 * PI / 4)%R;
             CloseSend])
    else Some (l, [])
  else if state l =? S2_DONE then
    if printed l then Some (l, [])
    else
      Some (mkLocals (state l) (step l) (pen_is_up l) (update l) (send l)
              (data l) true,
            [PrintLine "Completed"])
  else None.

(** Successive passes, one per answer of the motors; the actions of all
    passes in order. *)
Fixpoint run (elements : Z) (arrs : list (bool * bool)) (l : locals)
  : option (locals * list action) :=
  match arrs with
  | [] => Some (l, [])
  | arr :: rest =>
      match task_main elements arr l with
      | None => None
      | Some (l', acts) =>
          match run elements rest l' with
          | None => None
          | Some (l'', acts') => Some (l'', acts ++ acts')
          end
      end
  end.

End Coordination.

(* ================================================================== *)
(** ** The rest of [StepperDriver] (stepperdriver.py, lines 23-75, 141-201,
       268-289) *)
(* ================================================================== *)

Module DriverSetup.

Import Stdlib.Strings.String.
Import Driver.
Local Open Scope string_scope.
Local Open Scope Z_scope.

(** The other register addresses of [__init__]. *)
Definition V_MIN : Z := 2.
Definition V_MAX : Z := 3.
Definition PULSE_RAMP_DIV : Z := 12.
Definition IF_CONF : Z := 52.
Definition V_TARGET : Z := 4.

(** [utime.sleep(seconds)]: time is no part of the state. *)
Definition sleep (seconds : R) (s : state) : state := s.

(** [set_divs(pulsediv, rampdiv)] *)
Definition set_divs (pulsediv rampdiv : Z) (s : state) : state :=
  send_datagram (Z.lor (Z.shiftl PULSE_RAMP_DIV 1) 0) 0
    (Z.lor (Z.shiftl (Z.land pulsediv 15) 4) (Z.land rampdiv 15)) 0 s.

(** [set_vmin(vmin)] *)
Definition set_vmin (vmin : Z) (s : state) : state :=
  send_datagram (Z.lor (Z.shiftl V_MIN 1) 0) 0
    (Z.land (Z.shiftr vmin 8) 7) (Z.land vmin 255) s.

(** [set_vmax(vmax)] *)
Definition set_vmax (vmax : Z) (s : state) : state :=
  send_datagram (Z.lor (Z.shiftl V_MAX 1) 0) 0
    (Z.land (Z.shiftr vmax 8) 7) (Z.land vmax 255) s.

(** Sequencing of calls that may raise. *)
Definition and_then (r : error + state) (k : state -> error + state)
  : error + state :=
  match r with inl e => inl e | inr s => k s end.

(** [set_zero(offset)] *)
Definition set_zero (offset : R) (s : state) : error + state :=
  and_then (set_mode "hold" s) (fun s =>
  let s := sleep (2 / 10) s in
  let offset := (offset * ((8 * 48) / (2 * PI)))%R in
  let offset := py_int offset in
  let s := send_datagram (Z.lor (Z.shiftl X_ACTUAL 1) 0)
             (Z.land (Z.shiftr offset 16) 255)
             (Z.land (Z.shiftr offset 8) 255)
             (Z.land offset 255) s in
  let s := sleep (2 / 10) s in
  set_mode "ramp" s).

(** [__init__(nCS, ENN, spi, reverse)], for the chip, the wire and the
    console of [world]: the two buffers are made, then the six steps
    follow. *)
Definition __init__ (reverse : bool) (world : state) : error + state :=
  let s := mkState [0; 0; 0; 0] [0; 0; 0; 0] (regs world) (wire world)
             (console world) in
  let s := send_datagram (Z.lor (Z.shiftl IF_CONF 1) 0) 0 0
             (if reverse then 48 else 32) s in
  let s := set_vmin 20 s in
  let s := set_vmax 400 s in
  let s := set_divs 9 9 s in
  and_then (set_accel 100 s) (fun s => set_mode "ramp" s).

(** How a call of [set_velocity] can end other than by returning: the
    call of [set_mode] raises, or the assignment [TX_buf[3] = target_vel]
    does. *)
Inductive velocity_error : Set :=
| FromSetMode (e : error)
| ValueError.

Section WithStore.

(** [buf[i] = v] for any integer [v]: the byte that is stored, or [None]
    when the assignment raises ValueError.  A [bytearray] stores a value of
    [range(256)] as it is; for other values CPython raises, and MicroPython
    stores the low 8 bits. *)
Variable store : Z -> option Z.

(** [set_velocity(target_vel)] *)
Definition set_velocity (target_vel : Z) (s : state) : velocity_error + state :=
  match set_mode "velocity" s with
  | inl e => inl (FromSetMode e)
  | inr s =>
      let s := set_TX 0 (Z.lor (Z.shiftl V_TARGET 1) 0) s in
      let s := set_TX 1 0 s in
      let target_vel :=
        if target_vel <? 0 then target_vel + 2 ^ 12 else target_vel in
      let s := set_TX 2 (Z.land (Z.shiftr target_vel 8) 15) s in
      match store target_vel with
      | None => inl ValueError
      | Some b => inr (transaction (set_TX 3 b s))
      end
  end.

End WithStore.

End DriverSetup.

(* ================================================================== *)
(** ** [Actuator] (actuator.py) *)
(* ================================================================== *)

Module Actuator.

(** The levels of the three output pins, [true] for high. *)
Record pins : Set := mkPins { EN_A : bool; IN1A : bool; IN2A : bool }.

(** The actuator object: its pins, and the levels they were held at during
    each [utime.sleep(0.2)] so far, oldest first. *)
Record state : Set := mkState { levels : pins; held : list pins }.

(** [Actuator()]: the three pins are made outputs with [value=0]. *)
Definition __init__ : state := mkState (mkPins false false false) [].

Definition set_EN_A (v : bool) (s : state) : state :=
  mkState (mkPins v (IN1A (levels s)) (IN2A (levels s))) (held s).

Definition set_IN1A (v : bool) (s : state) : state :=
  mkState (mkPins (EN_A (levels s)) v (IN2A (levels s))) (held s).

Definition set_IN2A (v : bool) (s : state) : state :=
  mkState (mkPins (EN_A (levels s)) (IN1A (levels s)) v) (held s).

(** [utime.sleep(0.2)] *)
Definition sleep (s : state) : state :=
  mkState (levels s) (held s ++ [levels s]).

(** [lock_pen()] *)
Definition lock_pen (s : state) : state :=
  let s := set_EN_A true s in
  let s := set_IN1A true s in
  set_IN2A true s.

(** [pen_down()] *)
Definition pen_down (s : state) : state :=
  let s := set_EN_A true s in
  let s := set_IN2A true s in
  let s := set_IN1A false s in
  let s := sleep s in
  let s := set_IN2A false s in
  lock_pen s.

(** [pen_up()] *)
Definition pen_up (s : state) : state :=
  let s := set_EN_A true s in
  let s := set_IN1A true s in
  let s := set_IN2A false s in
  let s := sleep s in
  let s := set_IN1A false s in
  lock_pen s.

End Actuator.

(* ================================================================== *)
(** ** The HPGL parser of [startup] (main.py, lines 99-132) *)
(* ================================================================== *)

Module Parser.

Import Stdlib.Strings.String Stdlib.Strings.Ascii.
Import Resampler.
Local Open Scope string_scope.
Local Open Scope list_scope.

(** [s.split(sep)] for a separator of one character. *)
Fixpoint split (sep : ascii) (s : string) : list string :=
  match s with
  | EmptyString => [EmptyString]
  | String c rest =>
      if Ascii.eqb c sep then EmptyString :: split sep rest
      else
        match split sep rest with
        | piece :: pieces => String c piece :: pieces
        | [] => [String c EmptyString]
        end
  end.

(** [sub in s] *)
Fixpoint contains (sub s : string) : bool :=
  prefix sub s ||
  match s with
  | EmptyString => false
  | String _ rest => contains sub rest
  end.

(** [c in chars] for one character. *)
Fixpoint mem (c : ascii) (chars : string) : bool :=
  match chars with
  | EmptyString => false
  | String d rest => Ascii.eqb c d || mem c rest
  end.

(** [s.lstrip(chars)], [s.rstrip(chars)], [s.strip(chars)] *)
Fixpoint lstrip (chars s : string) : string :=
  match s with
  | EmptyString => EmptyString
  | String c rest => if mem c chars then lstrip chars rest else s
  end.

Fixpoint rstrip (chars s : string) : string :=
  match s with
  | EmptyString => EmptyString
  | String c rest =>
      match rstrip chars rest with
      | EmptyString => if mem c chars then EmptyString else String c EmptyString
      | kept => String c kept
      end
  end.

Definition strip (chars s : string) : string := rstrip chars (lstrip chars s).

(** What the parser can raise: [int] rejects a field, or [x] is read before
    it is bound. *)
Inductive failure : Set := ValueError | NameError.

Section WithInt.

(** Python's [int] on a string: the number, or [None] when it raises
    ValueError. *)
Variable int : string -> option Z.

(** [for coord in coords: ...] for the pen command [kind], with the flag
    [xbool] and the variable [x] ([None] while unbound) as they stand, and
    [STEPS] as it stands. *)
Fixpoint coord_loop (kind : PenKind) (coords : list string) (xbool : bool)
    (x : option Z) (STEPS : list RawCommand)
  : failure + (option Z * list RawCommand) :=
  match coords with
  | [] => inr (x, STEPS)
  | coord :: rest =>
      match int coord with
      | None => inl ValueError
      | Some v =>
          if xbool then coord_loop kind rest false (Some v) STEPS
          else
            match x with
            | None => inl NameError
            | Some x0 =>
                coord_loop kind rest true x (STEPS ++ [mkRaw kind x0 v])
            end
      end
  end.

(** The body of [for idx, command in enumerate(command_list)]. *)
Definition command_body (command : string) (x : option Z)
    (STEPS : list RawCommand) : failure + (option Z * list RawCommand) :=
  if contains "PU" command then
    if contains "," command then
      coord_loop PU (split "," (strip "PU" command)) true x STEPS
    else inr (x, STEPS)
  else if contains "PD" command then
    if contains "," command then
      coord_loop PD (split "," (strip "PD" command)) true x STEPS
    else inr (x, STEPS)
  else inr (x, STEPS).

Fixpoint command_loop (command_list : list string) (x : option Z)
    (STEPS : list RawCommand) : failure + (option Z * list RawCommand) :=
  match command_list with
  | [] => inr (x, STEPS)
  | command :: rest =>
      match command_body command x STEPS with
      | inl e => inl e
      | inr (x', STEPS') => command_loop rest x' STEPS'
      end
  end.

(** From the line read from the file to [STEPS]. *)
Definition parse (command_list : string) : failure + list RawCommand :=
  match command_loop (split ";" command_list) None [] with
  | inl e => inl e
  | inr (_, STEPS) => inr STEPS
  end.

End WithInt.

End Parser.

(* ================================================================== *)
(** ** [startup] as a whole (main.py, lines 80-286) *)
(* ================================================================== *)

Module Startup.

Import Stdlib.Strings.String.
Import Resampler Kinematics Parser.

(** How a call of [startup] ends: it returns [elements], having written
    Interpolated.txt and Send.txt, or one of its three parts does not
    finish. *)
Inductive result : Type :=
| Returns (elements : nat) (interpolated : list Waypoint)
    (send : list MotionCommand)
| ParserRaised (e : Parser.failure)
| ResamplerRaised (e : Resampler.failure) (interpolated : list Waypoint)
| SolverStopped (interpolated : list Waypoint) (o : solve_outcome).

(** [startup()], for the line [command_list] read from the HPGL file;
    [int] is Python's [int], [fuel] the bound of the embedding on the
    iterations of one [NewtonRaphson] call. *)
Definition startup (int : string -> option Z) (fuel : nat)
    (command_list : string) : result :=
  match parse int command_list with
  | inl e => ParserRaised e
  | inr STEPS =>
      match interpolate STEPS with
      | Raised e interp => ResamplerRaised e interp
      | Finished interp =>
          let elements := Resampler.elements (Finished interp) in
          match solve fuel interp with
          | Solved send => Returns elements interp send
          | o => SolverStopped interp o
          end
      end
  end.

End Startup.

(* ================================================================== *)
(** ** Properties: predicates, sample inputs and helper definitions *)
(* ================================================================== *)

Module ResamplerSpec.

Import Resampler.
Local Open Scope Q_scope.







(** The segments the loop may subdivide: all but PenDown-to-PenUp. *)
Definition subdivided (c c' : RawCommand) : bool :=
  match rkind c, rkind c' with PD, PU => false | _, _ => true end.


(** The loop body as a function of the command and its successor, if any. *)
Definition body_of (coords : RawCommand) (next : option RawCommand)
  : failure + list Waypoint :=
  body (coords :: match next with Some n => [n] | None => [] end) 0 coords.

Definition prepend (ws : list Waypoint) (o : outcome) : outcome :=
  match o with
  | Finished w => Finished (ws ++ w)
  | Raised e w => Raised e (ws ++ w)
  end.

(** The loop by recursion on what is left of [STEPS]. *)
Fixpoint emit_all (todo : list RawCommand) : outcome :=
  match todo with
  | [] => Finished []
  | c :: rest =>
      match body_of c (hd_error rest) with
      | inl e => Raised e []
      | inr ws => prepend ws (emit_all rest)
      end
  end.

(** The halfway point that [linspace] computes for [N = 3]. *)
Definition halfway (a b : Z) : Q :=
  Qred (inject_Z (b - a) / inject_Z (N - 1) * inject_Z 1 + inject_Z a).

Definition midpoint (c c' : RawCommand) : Waypoint :=
  mkWp PD (halfway (rx c) (rx c')) (halfway (ry c) (ry c')).









End ResamplerSpec.

Module KinematicsSpec.

Import Kinematics.
Local Open Scope R_scope.

(** [k] updates in a row, [None] when one of them meets a singular matrix. *)
Fixpoint iterate (fcn : vec2 -> vec2) (jacobian : vec2 -> mat2) (k : nat)
    (theta : vec2) : option vec2 :=
  match k with
  | O => Some theta
  | S k' =>
      match update fcn jacobian theta with
      | None => None
      | Some theta' => iterate fcn jacobian k' theta'
      end
  end.

(** [J] is the matrix of partial derivatives of [h] at [theta]: row [i] for
    component [i] of [h], column 0 for [theta[0][0]], column 1 for
    [theta[1][0]]. *)
Definition jacobian_of (h : vec2 -> vec2) (theta : vec2) (J : mat2) : Prop :=
  derivable_pt_lim (fun t => v0 (h (mkVec t (v1 theta)))) (v0 theta) (m00 J) /\
  derivable_pt_lim (fun t => v0 (h (mkVec (v0 theta) t))) (v1 theta) (m01 J) /\
  derivable_pt_lim (fun t => v1 (h (mkVec t (v1 theta)))) (v0 theta) (m10 J) /\
  derivable_pt_lim (fun t => v1 (h (mkVec (v0 theta) t))) (v1 theta) (m11 J).

Definition mopp (m : mat2) : mat2 :=
  mkMat (- m00 m) (- m01 m) (- m10 m) (- m11 m).


(** The point the pen is at for the first guess. *)
Definition home_line : Resampler.Waypoint :=
  Resampler.mkWp Resampler.PU (inject_Z 2800) (inject_Z 24400).

End KinematicsSpec.

Module DriverSpec.

Import Stdlib.Strings.String.
Import Driver.
Local Open Scope string_scope.
Local Open Scope list_scope.
Local Open Scope Z_scope.

(** The buffers are the two [bytearray(4)] of [__init__]. *)
Definition well_formed (s : state) : Prop :=
  List.length (TX_buf s) = 4%nat /\ List.length (RX_buf s) = 4%nat.

(** [pmul] and [pdiv] in the ranges the search runs through. *)
Definition in_range (pmul pdiv : Z) : Prop :=
  128 <= pmul <= 255 /\ 0 <= pdiv <= 13.

(** [0.95 < (pmul/max_accel)*2^(4-pdiv) < 1] *)
Definition valid_pair (max_accel pmul pdiv : Z) : Prop :=
  in_range pmul pdiv /\ q_valid (q_of max_accel pmul pdiv) = true.

(** The first valid pair in the order of the search: [pmul] ascending, and
    for each [pmul], [pdiv] ascending. *)
Definition first_valid_pair (max_accel pmul pdiv : Z) : Prop :=
  valid_pair max_accel pmul pdiv /\
  forall pmul' pdiv', valid_pair max_accel pmul' pdiv' ->
    pmul < pmul' \/ (pmul = pmul' /\ pdiv <= pdiv').

(** The four names [set_mode] knows. *)
Definition known_mode (mode : string) : Prop :=
  mode = "ramp" \/ mode = "hold" \/ mode = "velocity" \/ mode = "soft".


(** One microstep, in radians. *)
Definition microstep : R := (2 * PI / (8 * 48))%R.

(** [lo], [lo+1], ..., [lo+n-1] *)
Definition interval (lo : Z) (n : nat) : list Z :=
  map (fun i => lo + Z.of_nat i) (seq 0 n).

(** No pair of the search ranges is valid for [max_accel], by enumeration. *)
Definition none_valid (max_accel : Z) : bool :=
  forallb (fun pmul =>
    forallb (fun pdiv => negb (q_valid (q_of max_accel pmul pdiv)))
            (interval 0 14))
    (interval 128 128).

End DriverSpec.

Module CoordinationSpec.

Import Stdlib.Strings.String.
Import Resampler Kinematics Coordination.
Local Open Scope string_scope.
Local Open Scope list_scope.
Local Open Scope Z_scope.

(** The generator in its plotting state with the pen flag up, before any
    line of [stream] has been read. *)
Definition plotting_pen_up (stream : list MotionCommand) : locals :=
  mkLocals S1_PLOT 0 true true stream None false.

(** The generator before its first pass. *)
Definition not_started (stream : list MotionCommand) : locals :=
  mkLocals S0_INIT 0 false false stream None false.

(** The command a pass of the plotting state dispatches: the next line of
    the file when one is due, the line read last otherwise. *)
Definition current (l : locals) : option MotionCommand :=
  if update l then hd_error (send l) else data l.

(** What the fetch of a pass does, when it does anything. *)
Definition fetched (l : locals) (c : MotionCommand) : list action :=
  if update l then
    [PrintLine "Send coordinate updated"; ReadLine; UartWrite (xS c) (yS c) (th c)]
  else [].

(** The joint targets of a command. *)
Definition targets (c : MotionCommand) : list action :=
  [SetTargetPos motor1 (th1 c); SetTargetPos motor2 (th2 c)].

(** A pass in which the motors were sent to [c] and asked whether they
    arrived. *)
Definition poll (c : MotionCommand) (arr : bool * bool) : list action :=
  targets c ++ snd (both_arrived arr).



(** The two lines of the scenario: PenDown at (0,0), PenUp at (1,1), with
    some joint angles. *)
Definition pen_down_00 : MotionCommand := mkCmd PD 1 2 0 0 (1 / 3).
Definition pen_up_11 : MotionCommand := mkCmd PU 3 4 1 1 1.



End CoordinationSpec.

Module ResamplerCount.
Import Resampler ResamplerSpec.
Local Open Scope Q_scope.

(** The segments the loop cuts in two: those it may subdivide that are
    longer than [max_dist]. *)
Fixpoint cuts (STEPS : list RawCommand) : nat :=
  match STEPS with
  | c :: (c' :: _) as rest =>
      ((if subdivided c c' && too_far c c' then 1 else 0) + cuts rest)%nat
  | _ => 0%nat
  end.




End ResamplerCount.

Module ParserSpec.

Import Stdlib.Strings.String Stdlib.Strings.Ascii.
Import Resampler Parser.
Local Open Scope string_scope.
Local Open Scope list_scope.

(** [str(z)] of an integer: decimal digits, with a minus sign when
    negative. *)
Definition show (z : Z) : string :=
  DecimalString.NilZero.string_of_int (Z.to_int z).

(** [sep.join(pieces)] *)
Fixpoint join (sep : string) (pieces : list string) : string :=
  match pieces with
  | [] => EmptyString
  | [piece] => piece
  | piece :: rest => piece ++ sep ++ join sep rest
  end.

(** A command of an HPGL line: a pen command with the numbers that follow
    it, or anything else (IN, SP1, ...). *)
Inductive hpgl : Set :=
| Move (kind : PenKind) (numbers : list Z)
| Other (text : string).

Definition name (kind : PenKind) : string :=
  match kind with PU => "PU" | PD => "PD" end.

(** The text of a command, and the line of a list of commands. *)
Definition text_of (c : hpgl) : string :=
  match c with
  | Move kind numbers => name kind ++ join "," (map show numbers)
  | Other text => text
  end.

Definition line_of_commands (cs : list hpgl) : string :=
  join ";" (map text_of cs).

(** The numbers two by two; a last number without a partner is left out. *)
Fixpoint pairs (numbers : list Z) : list (Z * Z) :=
  match numbers with
  | x :: y :: rest => (x, y) :: pairs rest
  | _ => []
  end.

(** The tuples a command stands for. *)
Definition tuples (c : hpgl) : list RawCommand :=
  match c with
  | Move kind numbers =>
      map (fun p => mkRaw kind (fst p) (snd p)) (pairs numbers)
  | Other _ => []
  end.

(** A text that is no pen command and holds no separator. *)
Definition plain (c : hpgl) : Prop :=
  match c with
  | Move _ _ => True
  | Other text =>
      contains ";" text = false /\ contains "PU" text = false /\
      contains "PD" text = false
  end.

(** An [int] that reads decimal numbers, for the examples. *)
Definition int_decimal (s : string) : option Z :=
  option_map Z.of_int (DecimalString.NilZero.int_of_string s).

(** Every character of [s] is one of [allowed]. *)
Fixpoint within (allowed s : string) : bool :=
  match s with
  | EmptyString => true
  | String c rest => mem c allowed && within allowed rest
  end.

(** The characters of [str(z)]. *)
Definition numeric : string := "-0123456789".

(** What a loop adds to a [STEPS] it started from, put after [STEPS]. *)
Definition after (x : option Z) (STEPS : list RawCommand)
    (r : failure + (option Z * list RawCommand))
  : failure + (option Z * list RawCommand) :=
  match r with
  | inl e => inl e
  | inr (x', STEPS') =>
      inr (match x' with None => x | Some _ => x' end, STEPS ++ STEPS')
  end.

(** A line as a plotting program writes it. *)
Definition sample_line : list hpgl :=
  [Other "IN"; Other "SP1"; Move PU [0; 0]%Z; Move PD [100; 0; 100; -50; 7]%Z;
   Move PU []; Other ""].

End ParserSpec.

Module SolverSpec.
Import Kinematics KinematicsSpec.
Local Open Scope R_scope.

(** The line [c] of Send.txt stands for the line [w] of Interpolated.txt:
    the same pen command, the coordinates scaled and shifted. *)
Definition line_for (w : Resampler.Waypoint) (c : MotionCommand) : Prop :=
  loc c = Resampler.wkind w /\
  xS c = 1 / 40 * Q2R (Resampler.wx w) - 70 /\
  yS c = 1 / 40 * Q2R (Resampler.wy w) - 500.

(** With motor 1 turned [k] whole revolutions past the angle written, the
    pen is within [1e-3] of the point of the line, in x and in y. *)
Definition reaches (c : MotionCommand) (k : Z) : Prop :=
  Rabs (xS c - 4 / PI * th2 c * cos ((th1 c + 2 * PI * IZR k) / 3)) <= 1 / 1000 /\
  Rabs (yS c - 4 / PI * th2 c * sin ((th1 c + 2 * PI * IZR k) / 3)) <= 1 / 1000.

End SolverSpec.

Module TaskSpec.
Import Stdlib.Strings.String.
Import Resampler Kinematics Coordination CoordinationSpec.
Local Open Scope string_scope.
Local Open Scope list_scope.
Local Open Scope Z_scope.

(** The number of [send.readline()] calls in a trace. *)
Definition is_read (a : action) : bool :=
  match a with ReadLine => true | _ => false end.

Definition reads (trace : list action) : nat := List.length (filter is_read trace).

(** The number of lines of Send.txt the generator has read so far, as its
    local variables tell. *)
Definition lines_read (l : locals) : Z :=
  if state l =? S0_INIT then 0 else step l + (if update l then 0 else 1).

(** The passes in which both motors answered that they had arrived. *)
Definition both (arr : bool * bool) : bool := fst arr && snd arr.

Definition arrivals (arrs : list (bool * bool)) : nat :=
  List.length (filter both arrs).

(** [pen.pen_down()] is called only when the pen call before it was
    [pen.pen_up()]; [up] tells whether the last pen call so far was
    [pen_up]. *)
Fixpoint lowered_after_lift (up : bool) (trace : list action) : Prop :=
  match trace with
  | [] => True
  | PenUp :: rest => lowered_after_lift true rest
  | PenDown :: rest => up = true /\ lowered_after_lift false rest
  | _ :: rest => lowered_after_lift up rest
  end.

(** Whether the last pen call of [trace] was [pen_up], [up] being the answer
    before [trace]. *)
Fixpoint lifted_after (up : bool) (trace : list action) : bool :=
  match trace with
  | [] => up
  | PenUp :: rest => lifted_after true rest
  | PenDown :: rest => lifted_after false rest
  | _ :: rest => lifted_after up rest
  end.

(** What the generator keeps true of its variables between two passes, for a
    file [stream] and the share [elements]. *)
Definition between_passes (elements : Z) (stream : list MotionCommand)
    (l : locals) : Prop :=
  (state l = S0_INIT /\ send l = stream) \/
  ((state l = S1_PLOT \/ state l = S2_DONE) /\
   0 <= step l <= Z.max 0 (elements - 1) /\
   send l = skipn (Z.to_nat (lines_read l)) stream /\
   (state l = S2_DONE -> step l = elements - 1) /\
   (update l = false ->
      step l < elements - 1 /\
      exists c, data l = Some c /\
                pen_is_up l = match loc c with PU => true | PD => false end)).

(** An upper bound of the passes left before Done when both motors arrive in
    every pass. *)
Definition passes_left (elements : Z) (l : locals) : nat :=
  if state l =? S0_INIT then 2 * Z.to_nat elements
  else if state l =? S1_PLOT then
    2 * Z.to_nat (elements - 1 - step l) + 1 - (if update l then 0 else 1)
  else 0.

(** A file of three lines. *)
Definition three_lines : list MotionCommand :=
  [mkCmd PU 1 2 0 0 (1 / 3); mkCmd PD 3 4 1 1 1; mkCmd PU 5 6 2 2 (5 / 3)].

End TaskSpec.

Module DriverSetupSpec.

Import Driver DriverSpec DriverSetup.
Local Open Scope Z_scope.


(** [set_zero(theta)], then [set_target_pos(theta)], then [arrived(0)]. *)
Definition arrived_at_zero (theta : R) (s : state) : option bool :=
  match set_zero theta s with
  | inr s' => Some (fst (arrived 0 (set_target_pos theta s')))
  | inl _ => None
  end.

(** The value [set_velocity] assigns to [TX_buf[3]]. *)
Definition unsigned12 (target_vel : Z) : Z :=
  if target_vel <? 0 then target_vel + 2 ^ 12 else target_vel.

(** The two ways of a [bytearray] with a value outside [range(256)]. *)
Definition store_raising (v : Z) : option Z :=
  if (0 <=? v) && (v <? 256) then Some v else None.

Definition store_low_byte (v : Z) : option Z := Some (v mod 256).

(** A value that a [bytearray] holds, and a datagram of four of them. *)
Definition byte (b : Z) : Prop := 0 <= b < 256.

Definition datagram (d : list Z) : Prop :=
  List.length d = 4%nat /\ Forall byte d.

(** A call of a method of a driver. *)
Inductive method : Type :=
| SetMode (mode : Stdlib.Strings.String.string)
| SetDivs (pulsediv rampdiv : Z)
| SetVmin (vmin : Z)
| SetVmax (vmax : Z)
| SetAccel (max_accel : Z)
| SetTargetPos (target_pos : R)
| SetZero (offset : R)
| GetTargetPos
| Arrived (tolerance : R)
| GetPos.

Definition call (m : method) (s : state) : error + state :=
  match m with
  | SetMode mode => set_mode mode s
  | SetDivs pulsediv rampdiv => inr (set_divs pulsediv rampdiv s)
  | SetVmin vmin => inr (set_vmin vmin s)
  | SetVmax vmax => inr (set_vmax vmax s)
  | SetAccel max_accel => set_accel max_accel s
  | SetTargetPos target_pos => inr (set_target_pos target_pos s)
  | SetZero offset => set_zero offset s
  | GetTargetPos => inr (snd (get_target_pos s))
  | Arrived tolerance => inr (snd (arrived tolerance s))
  | GetPos => inr (snd (get_pos s))
  end.

(** The calls of [ms], first to last, up to the first that raises. *)
Fixpoint calls (ms : list method) (s : state) : error + state :=
  match ms with
  | [] => inr s
  | m :: rest => and_then (call m s) (calls rest)
  end.

End DriverSetupSpec.

Module ActuatorSpec.
Import Actuator.

(** A call of one of the three methods. *)
Inductive call : Set := PenDownCall | PenUpCall | LockPenCall.

Definition perform (c : call) (s : state) : state :=
  match c with
  | PenDownCall => pen_down s
  | PenUpCall => pen_up s
  | LockPenCall => lock_pen s
  end.

(** The calls of [cs], first to last. *)
Definition perform_all (cs : list call) (s : state) : state :=
  fold_left (fun s c => perform c s) cs s.

(** The levels a call holds while it sleeps, if it sleeps. *)
Definition drive (c : call) : list pins :=
  match c with
  | PenDownCall => [mkPins true false true]
  | PenUpCall => [mkPins true true false]
  | LockPenCall => []
  end.

End ActuatorSpec.

(* ================================================================== *)
(** ** The resampler: spacing, pen state, the terminal point (C1, C6, C7) *)
(* ================================================================== *)

Module ResamplerProofs.

Import Resampler ResamplerSpec.
Local Open Scope Q_scope.

Lemma body_body_of STEPS idx coords :
  body STEPS idx coords = body_of coords (nth_error STEPS (idx + 1)).
Proof.
  unfold body_of, body.
  destruct (nth_error STEPS (idx + 1)) as [n|] eqn:E.
  - assert (H : (idx + 1 < length STEPS)%nat)
      by (apply nth_error_Some; congruence).
    apply Nat.ltb_lt in H. rewrite H. reflexivity.
  - assert (H : (length STEPS <= idx + 1)%nat) by (apply nth_error_None; exact E).
    apply Nat.ltb_ge in H. rewrite H. reflexivity.
Qed.

Lemma loop_emit_all todo : forall pre file,
  interp_loop (pre ++ todo) (length pre) todo file = prepend file (emit_all todo).
Proof.
  induction todo as [|c rest IH]; intros pre file; simpl.
  - now rewrite app_nil_r.
  - rewrite body_body_of.
    replace (nth_error (pre ++ c :: rest) (length pre + 1)) with (hd_error rest).
    2:{ rewrite nth_error_app2 by lia.
        replace (length pre + 1 - length pre)%nat with 1%nat by lia.
        now destruct rest. }
    destruct (body_of c (hd_error rest)) as [e|ws]; simpl.
    + now rewrite app_nil_r.
    + replace (pre ++ c :: rest) with ((pre ++ [c]) ++ rest)
        by now rewrite <- app_assoc.
      replace (S (length pre)) with (length (pre ++ [c]))
        by (rewrite length_app; simpl; lia).
      rewrite IH. destruct (emit_all rest); simpl; now rewrite app_assoc.
Qed.

Lemma interpolate_emit_all STEPS : interpolate STEPS = emit_all STEPS.
Proof.
  unfold interpolate.
  pose proof (loop_emit_all STEPS [] []) as H. simpl in H. rewrite H.
  now destruct (emit_all STEPS).
Qed.

Lemma Qred_inject_Z a : Qred (inject_Z a) = inject_Z a.
Proof.
  unfold Qred, inject_Z.
  generalize (Z.ggcd_gcd a 1), (Z.ggcd_correct_divisors a 1).
  destruct (Z.ggcd a 1) as (g, (aa, bb)). simpl.
  intros Hg [Ha Hb]. rewrite Z.gcd_1_r in Hg. subst g.
  rewrite Z.mul_1_l in Ha, Hb. now subst.
Qed.

Lemma interpolated_N c c' :
  interpolated c c' =
  Some [(inject_Z (rx c), inject_Z (ry c));
        (halfway (rx c) (rx c'), halfway (ry c) (ry c'))].
Proof.
  unfold interpolated, linspace, halfway.
  change (N - 1 =? 0)%Z with false. cbv iota.
  change (range (N - 1)) with [0%Z; 1%Z]. cbn [map combine].
  assert (H : forall a b, Qred (inject_Z (b - a) / inject_Z (N - 1) * inject_Z 0 + inject_Z a)
                          = inject_Z a).
  { intros a b. rewrite <- (Qred_inject_Z a) at 2.
    apply Qred_complete. change (inject_Z 0) with 0. ring. }
  now rewrite !H.
Qed.


(** What one iteration writes: the command's own point, alone or followed
    by the halfway point, which is always written as PD. *)
Lemma body_of_cases c next ws :
  body_of c next = inr ws ->
  (ws = [unchanged c] /\
    (forall c', next = Some c' -> subdivided c c' = true -> too_far c c' = false))
  \/ exists c', next = Some c' /\ subdivided c c' = true
                /\ too_far c c' = true /\ ws = [unchanged c; midpoint c c'].
Proof.
  unfold body_of, subdivided, midpoint.
  destruct next as [c'|]; unfold body; cbn [nth_error length Nat.add Nat.ltb Nat.leb].
  - rewrite interpolated_N.
    destruct c as [k x y], c' as [k' x' y']; cbn [rkind rx ry].
    destruct (too_far (mkRaw k x y) (mkRaw k' x' y')) eqn:T;
      destruct k, k'; cbn [write_first_up write_all_down map fst snd unchanged rkind rx ry];
      intros H; injection H as <-;
      first [ left; split; [reflexivity | intros c2 E; injection E as <-; cbn [rkind];
                                          solve [congruence | intros _; exact T]]
            | right; eexists; repeat split; solve [reflexivity | exact T] ].
  - destruct c as [k x y]; cbn [rkind]. destruct k; intros H; [|discriminate].
    injection H as <-. left. split; [reflexivity | discriminate].
Qed.

Lemma Q2R_inject_Z z : Q2R (inject_Z z) = IZR z.
Proof. unfold Q2R, inject_Z. simpl. field. Qed.

























End ResamplerProofs.

(* ================================================================== *)
(** ** The solver: the loop, the Jacobian, the normalized angle (C2, C8) *)
(* ================================================================== *)

Module KinematicsProofs.

Import Kinematics KinematicsSpec.
Local Open Scope R_scope.

Lemma below_spec gv thresh :
  below gv thresh = true <-> Rabs (v0 gv) <= thresh /\ Rabs (v1 gv) <= thresh.
Proof.
  unfold below.
  destruct (Rle_dec (Rabs (v0 gv)) thresh), (Rle_dec (Rabs (v1 gv)) thresh);
    cbn; split; intros H; try discriminate; tauto.
Qed.

(** The update solves [J (theta - theta') = g] for [theta']. *)
Lemma update_spec fcn jacobian theta theta' :
  update fcn jacobian theta = Some theta' ->
  det (jacobian theta) <> 0 /\
  dot (jacobian theta) (vsub theta theta') = fcn theta.
Proof.
  unfold update, inv.
  destruct (Req_dec_T (det (jacobian theta)) 0) as [|D]; [discriminate|].
  intros H. injection H as <-. split; [exact D|].
  destruct (jacobian theta) as [a b c d], (fcn theta) as [g0 g1], theta as [t0 t1].
  unfold dot, vsub, det in *. cbn in *. f_equal; field; exact D.
Qed.

Lemma update_unique fcn jacobian theta theta' :
  det (jacobian theta) <> 0 ->
  dot (jacobian theta) (vsub theta theta') = fcn theta ->
  update fcn jacobian theta = Some theta'.
Proof.
  unfold update, inv. intros D H.
  destruct (Req_dec_T (det (jacobian theta)) 0) as [E|_]; [contradiction|].
  f_equal. rewrite <- H.
  destruct (jacobian theta) as [a b c d], theta as [t0 t1], theta' as [s0 s1].
  unfold dot, vsub, det in *. cbn in *. f_equal; field; exact D.
Qed.

Lemma NewtonRaphson_returns fcn jacobian thresh fuel : forall guess theta,
  NewtonRaphson fuel fcn jacobian guess thresh = Returned theta <->
  exists k, (k < fuel)%nat /\
    iterate fcn jacobian k guess = Some theta /\
    below (fcn theta) thresh = true /\
    forall j theta_j, (j < k)%nat ->
      iterate fcn jacobian j guess = Some theta_j ->
      below (fcn theta_j) thresh = false.
Proof.
  induction fuel as [|fuel IH]; intros guess theta; cbn [NewtonRaphson].
  - split; [discriminate | intros (k & Hk & _); lia].
  - destruct (below (fcn guess) thresh) eqn:B.
    + split.
      * intros H. injection H as <-. exists 0%nat.
        repeat split; [lia | exact B | intros; lia].
      * intros (k & Hk & It & Bt & Hmin). destruct k as [|k].
        -- cbn in It. congruence.
        -- specialize (Hmin 0%nat guess ltac:(lia) eq_refl). congruence.
    + destruct (update fcn jacobian guess) as [theta'|] eqn:U.
      * rewrite IH. split.
        -- intros (k & Hk & It & Bt & Hmin). exists (S k).
           repeat split; [lia | cbn; now rewrite U | exact Bt |].
           intros [|j] tj Hj Ij.
           ++ cbn in Ij. injection Ij as <-. exact B.
           ++ cbn in Ij. rewrite U in Ij. apply (Hmin j); [lia | exact Ij].
        -- intros (k & Hk & It & Bt & Hmin). destruct k as [|k].
           ++ cbn in It. injection It as <-. congruence.
           ++ cbn in It. rewrite U in It. exists k.
              repeat split; [lia | exact It | exact Bt |].
              intros j tj Hj Ij. apply (Hmin (S j)); [lia|].
              cbn. now rewrite U.
      * split; [discriminate|].
        intros (k & Hk & It & Bt & Hmin). destruct k as [|k].
        -- cbn in It. injection It as <-. congruence.
        -- cbn in It. now rewrite U in It.
Qed.

(** Derivatives of the four shapes that occur in [f] and [g]. *)
Lemma deriv_third x : derivable_pt_lim (fun t => t / 3) x (1 / 3).
Proof.
  replace (1 / 3) with (1 * / 3 + x * 0) by field.
  apply (derivable_pt_lim_mult id (fun _ => / 3)).
  - apply derivable_pt_lim_id.
  - apply derivable_pt_lim_const.
Qed.

Lemma deriv_scaled_cos a x :
  derivable_pt_lim (fun t => a * cos (t / 3)) x (- (1 / 3) * a * sin (x / 3)).
Proof.
  replace (- (1 / 3) * a * sin (x / 3))
    with (0 * cos (x / 3) + a * (- sin (x / 3) * (1 / 3))) by field.
  apply (derivable_pt_lim_mult (fun _ => a) (fun t => cos (t / 3))).
  - apply derivable_pt_lim_const.
  - apply (derivable_pt_lim_comp (fun t => t / 3) cos).
    + apply deriv_third.
    + apply derivable_pt_lim_cos.
Qed.

Lemma deriv_scaled_sin a x :
  derivable_pt_lim (fun t => a * sin (t / 3)) x ((1 / 3) * a * cos (x / 3)).
Proof.
  replace ((1 / 3) * a * cos (x / 3))
    with (0 * sin (x / 3) + a * (cos (x / 3) * (1 / 3))) by field.
  apply (derivable_pt_lim_mult (fun _ => a) (fun t => sin (t / 3))).
  - apply derivable_pt_lim_const.
  - apply (derivable_pt_lim_comp (fun t => t / 3) sin).
    + apply deriv_third.
    + apply derivable_pt_lim_sin.
Qed.

Lemma deriv_linear a b x :
  derivable_pt_lim (fun t => a * t * b) x (a * b).
Proof.
  replace (a * b) with ((0 * x + a * 1) * b + (a * x) * 0) by ring.
  apply (derivable_pt_lim_mult (fun t => a * t) (fun _ => b)).
  - apply (derivable_pt_lim_mult (fun _ => a) id).
    + apply derivable_pt_lim_const.
    + apply derivable_pt_lim_id.
  - apply derivable_pt_lim_const.
Qed.

Lemma deriv_from_const c h x l :
  derivable_pt_lim h x l -> derivable_pt_lim (fun t => c - h t) x (- l).
Proof.
  intros H. replace (- l) with (0 - l) by ring.
  apply (derivable_pt_lim_minus (fun _ => c) h).
  - apply derivable_pt_lim_const.
  - exact H.
Qed.

(** The partial derivatives of the position [f]. *)
Lemma jacobian_of_f theta : jacobian_of f theta (mopp (dg_dtheta theta)).
Proof.
  destruct theta as [t0 t1]. unfold jacobian_of, f, dg_dtheta, mopp. cbn.
  repeat split.
  - replace (- (1 / 3 * (4 / PI * t1) * sin (t0 / 3)))
      with (- (1 / 3) * (4 / PI * t1) * sin (t0 / 3)) by ring.
    apply deriv_scaled_cos.
  - replace (- (-4 / PI * cos (t0 / 3))) with (4 / PI * cos (t0 / 3))
      by (field; apply PI_neq0).
    apply deriv_linear.
  - replace (- (-1 / 3 * (4 / PI * t1) * cos (t0 / 3)))
      with (1 / 3 * (4 / PI * t1) * cos (t0 / 3)) by (field; apply PI_neq0).
    apply deriv_scaled_sin.
  - replace (- (-4 / PI * sin (t0 / 3))) with (4 / PI * sin (t0 / 3))
      by (field; apply PI_neq0).
    apply deriv_linear.
Qed.

(** [dg_dtheta] holds the partial derivatives of the residual [g]. *)
Lemma jacobian_of_g x theta : jacobian_of (g x) theta (dg_dtheta theta).
Proof.
  destruct (jacobian_of_f theta) as (H00 & H01 & H10 & H11).
  destruct theta as [t0 t1], x as [x0 x1].
  unfold jacobian_of, g, vsub, mopp in *. cbn in *.
  repeat split.
  - rewrite <- (Ropp_involutive (1 / 3 * _ * _)).
    apply (deriv_from_const x0 _ _ _ H00).
  - rewrite <- (Ropp_involutive (-4 / PI * _)).
    apply (deriv_from_const x0 _ _ _ H01).
  - rewrite <- (Ropp_involutive (-1 / 3 * _ * _)).
    apply (deriv_from_const x1 _ _ _ H10).
  - rewrite <- (Ropp_involutive (-4 / PI * _)).
    apply (deriv_from_const x1 _ _ _ H11).
Qed.




(** C2, as stated, fails: the matrix [dg_dtheta] that the update inverts is
    not the matrix of partial derivatives of the forward model [f].  At
    [theta = (0, 1)] the derivative of the model's x in [theta[1][0]] is
    [4/PI], while the entry of [dg_dtheta] is [-4/PI]. *)
Lemma jacobian_counterexample :
  m01 (dg_dtheta (mkVec 0 1)) = - 4 / PI /\
  derivable_pt_lim (fun t => v0 (f (mkVec 0 t))) 1 (4 / PI) /\
  ~ jacobian_of f (mkVec 0 1) (dg_dtheta (mkVec 0 1)).
Proof.
  assert (V : m01 (dg_dtheta (mkVec 0 1)) = - 4 / PI).
  { cbn. replace (0 / 3) with 0 by field. rewrite cos_0. field. apply PI_neq0. }
  assert (D : derivable_pt_lim (fun t => v0 (f (mkVec 0 t))) 1 (4 / PI)).
  { destruct (jacobian_of_f (mkVec 0 1)) as (_ & H & _).
    change (m01 (mopp (dg_dtheta (mkVec 0 1))))
      with (- m01 (dg_dtheta (mkVec 0 1))) in H.
    rewrite V in H. cbn [v0 v1] in H.
    replace (4 / PI) with (- (-4 / PI)) by (field; apply PI_neq0).
    exact H. }
  split; [exact V | split; [exact D|]].
  intros (_ & H & _). rewrite V in H. cbn [v0 v1] in H.
  pose proof (uniqueness_limite _ _ _ _ D H) as E.
  pose proof PI_RGT_0 as P.
  assert (0 < 4 / PI) by (apply Rdiv_lt_0_compat; lra).
  assert (-4 / PI = - (4 / PI)) by (field; lra).
  lra.
Qed.

(** C2, amended.  [NewtonRaphson] returns the first iterate of the update at
    which both components of the residual are at most [thresh] in
    magnitude, each update [theta'] of [theta] satisfying
    [J(theta) (theta - theta') = g(theta)], that is
    [theta' = theta - J(theta)^-1 g(theta)].  The [J] passed by [startup],
    [dg_dtheta], is the matrix of partial derivatives of the residual
    [g(x, .)], which is the negated matrix of partial derivatives of the
    forward model [f]. *)
Theorem NewtonRaphson_amended :
  (forall fcn jacobian fuel guess thresh theta,
      NewtonRaphson fuel fcn jacobian guess thresh = Returned theta <->
      exists k, (k < fuel)%nat /\
        iterate fcn jacobian k guess = Some theta /\
        (Rabs (v0 (fcn theta)) <= thresh /\ Rabs (v1 (fcn theta)) <= thresh) /\
        forall j theta_j, (j < k)%nat ->
          iterate fcn jacobian j guess = Some theta_j ->
          ~ (Rabs (v0 (fcn theta_j)) <= thresh /\
             Rabs (v1 (fcn theta_j)) <= thresh)) /\
  (forall fcn jacobian theta theta',
      update fcn jacobian theta = Some theta' <->
      det (jacobian theta) <> 0 /\
      dot (jacobian theta) (vsub theta theta') = fcn theta) /\
  (forall x theta,
      jacobian_of (g x) theta (dg_dtheta theta) /\
      jacobian_of f theta (mopp (dg_dtheta theta))).
Proof.
  split; [|split].
  - intros fcn jacobian fuel guess thresh theta.
    rewrite NewtonRaphson_returns. split.
    + intros (k & Hk & It & Bt & Hmin). exists k.
      split; [exact Hk|]. split; [exact It|].
      split; [now apply below_spec|].
      intros j tj Hj Ij Hb. apply below_spec in Hb.
      rewrite (Hmin j tj Hj Ij) in Hb. discriminate.
    + intros (k & Hk & It & Bt & Hmin). exists k.
      split; [exact Hk|]. split; [exact It|].
      split; [now apply below_spec|].
      intros j tj Hj Ij. destruct (below (fcn tj) thresh) eqn:B; [|reflexivity].
      exfalso. apply (Hmin j tj Hj Ij). now apply below_spec.
  - intros fcn jacobian theta theta'. split.
    + apply update_spec.
    + intros [D H]. now apply update_unique.
  - intros x theta. split; [apply jacobian_of_g | apply jacobian_of_f].
Qed.

Lemma Int_part_small x : 0 <= x < 1 -> Int_part x = 0%Z.
Proof.
  intros [A B]. destruct (base_Int_part x) as [L U].
  assert (-1 < Int_part x)%Z by (apply lt_IZR; lra).
  assert (Int_part x < 1)%Z by (apply lt_IZR; lra). lia.
Qed.

Lemma fmod_small x y : 0 <= x < y -> fmod x y = x.
Proof.
  intros [A B]. unfold fmod. rewrite Int_part_small; [cbn; ring|].
  split.
  - apply Rmult_le_pos; [exact A|]. apply Rlt_le, Rinv_0_lt_compat. lra.
  - apply (Rmult_lt_reg_r y); [lra|].
    replace (x / y * y) with x by (field; lra). lra.
Qed.

(** The line for the point the first guess stands on: the loop of
    [NewtonRaphson] returns the guess at once. *)
Lemma solve_home :
  solve 1 [home_line] =
  Solved [line_of home_line guess] /\
  th1 (line_of home_line guess) = 3 * PI / 2 /\
  th (line_of home_line guess) = PI / 2 /\
  xS (line_of home_line guess) = 0 /\
  yS (line_of home_line guess) = 110.
Proof.
  pose proof PI_RGT_0 as P.
  assert (X : x_des home_line = mkVec 0 110).
  { unfold x_des, home_line, xSCALE, xOFFSET, ySCALE, yOFFSET.
    cbn [Resampler.wx Resampler.wy]. rewrite !ResamplerProofs.Q2R_inject_Z.
    f_equal; field. }
  assert (G : g (x_des home_line) guess = mkVec 0 0).
  { rewrite X. unfold g, f, vsub, guess. cbn [v0 v1].
    replace (3 * PI / 2 / 3) with (PI / 2) by field.
    rewrite cos_PI2, sin_PI2. f_equal; field; lra. }
  assert (B : below (g (x_des home_line) guess) (1 / 1000) = true).
  { rewrite G. apply below_spec. cbn [v0 v1]. rewrite Rabs_R0. lra. }
  assert (T : th1 (line_of home_line guess) = 3 * PI / 2).
  { unfold line_of, guess. cbn [th1 v0]. apply fmod_small. lra. }
  split; [|split; [exact T | split; [|split]]].
  - unfold solve. cbn [solve_loop NewtonRaphson]. rewrite B. reflexivity.
  - change (th (line_of home_line guess)) with (th1 (line_of home_line guess) / 3).
    rewrite T. field.
  - change (xS (line_of home_line guess)) with (v0 (x_des home_line)).
    now rewrite X.
  - change (yS (line_of home_line guess)) with (v1 (x_des home_line)).
    now rewrite X.
Qed.


End KinematicsProofs.

(* ================================================================== *)
(** ** The driver: acceleration search, modes, target position (C3, C9, C4) *)
(* ================================================================== *)

Module DriverProofs.

Import Stdlib.Strings.String.
Import Driver DriverSpec.
Local Open Scope string_scope.
Local Open Scope list_scope.
Local Open Scope Z_scope.

Lemma in_interval lo n z :
  lo <= z < lo + Z.of_nat n -> In z (interval lo n).
Proof.
  intros H. unfold interval. apply in_map_iff.
  exists (Z.to_nat (z - lo)). split; [lia|].
  apply in_seq. lia.
Qed.

Lemma four_bytes (buf : list Z) :
  List.length buf = 4%nat -> exists a b c d, buf = [a; b; c; d].
Proof.
  destruct buf as [|a [|b [|c [|d [|e tl]]]]]; try discriminate.
  intros _. now exists a, b, c, d.
Qed.

Lemma chip_reply_length r tx r' rx :
  chip_exchange r tx = (r', Some rx) -> List.length rx = 4%nat.
Proof.
  unfold chip_exchange. destruct (Z.testbit _ _); intros H; inversion H.
  reflexivity.
Qed.

(** A datagram goes out as written, whatever the buffer held before. *)
Lemma send_datagram_wire b0 b1 b2 b3 s :
  well_formed s ->
  wire (send_datagram b0 b1 b2 b3 s) = wire s ++ [[b0; b1; b2; b3]] /\
  TX_buf (send_datagram b0 b1 b2 b3 s) = [b0; b1; b2; b3] /\
  console (send_datagram b0 b1 b2 b3 s) = console s /\
  well_formed (send_datagram b0 b1 b2 b3 s).
Proof.
  intros [HT HR]. destruct (four_bytes _ HT) as (a & b & c & d & E).
  unfold send_datagram, transaction, set_TX, well_formed.
  cbn [TX_buf RX_buf regs wire console]. rewrite E. cbn [setitem].
  destruct (chip_exchange _ _) as [r [rx|]] eqn:X;
    cbn [TX_buf RX_buf regs wire console]; repeat split; auto.
  eapply chip_reply_length, X.
Qed.

(** The inner loop stops at the first valid [pdiv], or at [len(pd)]. *)
Lemma pdiv_loop_spec max_accel pmul budget : forall pdiv,
  0 <= pdiv <= 14 -> 14 - pdiv < Z.of_nat budget ->
  exists pd v,
    pdiv_loop budget max_accel pmul pdiv = Some (pd, v) /\
    pdiv <= pd <= 14 /\
    (forall d, pdiv <= d < pd -> q_valid (q_of max_accel pmul d) = false) /\
    (if v then pd < 14 /\ q_valid (q_of max_accel pmul pd) = true
     else pd = 14).
Proof.
  induction budget as [|budget IH]; intros pdiv Hp Hb; [lia|].
  cbn [pdiv_loop]. unfold len_pd.
  destruct (pdiv <? 14) eqn:G.
  - apply Z.ltb_lt in G.
    destruct (q_valid (q_of max_accel pmul pdiv)) eqn:V.
    + exists pdiv, true.
      split; [reflexivity|]. split; [lia|]. split; [intros d Hd; lia|].
      split; [lia | exact V].
    + destruct (IH (pdiv + 1)) as (pd & v & E & Hr & Hn & Hv); try lia.
      exists pd, v.
      split; [exact E|]. split; [lia|]. split; [|exact Hv].
      intros d Hd. destruct (Z.eq_dec d pdiv) as [->|]; [exact V|].
      apply Hn. lia.
  - apply Z.ltb_ge in G. exists pdiv, false.
    split; [reflexivity|]. split; [lia|]. split; [intros d Hd; lia | lia].
Qed.

(** The outer loop stops at the first valid pair in its order, or at
    [pmul = 256] with the [pdiv = 14] the last inner loop left. *)
Lemma pmul_loop_spec max_accel budget : forall pmul pdiv0,
  128 <= pmul <= 256 -> 256 - pmul < Z.of_nat budget ->
  (pmul = 256 -> pdiv0 = 14) ->
  exists pm pd v,
    pmul_loop budget max_accel pmul pdiv0 false = Some (pm, pd, v) /\
    (forall pmul' pdiv', pmul <= pmul' -> valid_pair max_accel pmul' pdiv' ->
       v = true /\ (pm < pmul' \/ (pm = pmul' /\ pd <= pdiv'))) /\
    (if v then valid_pair max_accel pm pd else pm = 256 /\ pd = 14).
Proof.
  induction budget as [|budget IH]; intros pmul pdiv0 Hp Hb H0; [lia|].
  cbn [pmul_loop]. unfold len_pm.
  destruct (pmul <? 256 - 128 + 128) eqn:G.
  - apply Z.ltb_lt in G.
    destruct (pdiv_loop_spec max_accel pmul 15 0) as (pd & v & E & Hr & Hn & Hv);
      try lia.
    rewrite E. destruct v.
    + exists pmul, pd, true.
      split; [reflexivity|]. split.
      * intros pmul' pdiv' Hle [[Hpm Hpd] V]. split; [reflexivity|].
        destruct (Z.eq_dec pmul pmul') as [<-|]; [right | left; lia].
        split; [reflexivity|].
        destruct (Z_le_gt_dec pd pdiv'); [assumption|].
        rewrite Hn in V by lia. discriminate.
      * destruct Hv as [Hlt V]. split; [split; lia | exact V].
    + subst pd.
      destruct (IH (pmul + 1) 14) as (pm & pd & v & E' & Hfirst & Hv');
        try lia.
      exists pm, pd, v.
      split; [exact E'|]. split; [|exact Hv'].
      intros pmul' pdiv' Hle VP.
      destruct (Z.eq_dec pmul pmul') as [<-|].
      * destruct VP as [[_ Hpd] V]. rewrite Hn in V by lia. discriminate.
      * apply (Hfirst pmul' pdiv'); [lia | exact VP].
  - apply Z.ltb_ge in G. exists pmul, pdiv0, false.
    split; [reflexivity|]. split; [|lia].
    intros pmul' pdiv' Hle [[Hpm _] _]. lia.
Qed.

(** [0b10000000 | (pmul & 0b01111111)] and [pdiv & 0b00001111] are [pmul]
    and [pdiv] on the ranges of the search. *)
Lemma pmul_byte pmul : 128 <= pmul <= 255 -> Z.lor 128 (Z.land pmul 127) = pmul.
Proof.
  intros H.
  assert (A : forallb (fun p => Z.lor 128 (Z.land p 127) =? p) (interval 128 128)
              = true) by (vm_compute; reflexivity).
  rewrite forallb_forall in A. apply Z.eqb_eq, A, in_interval. lia.
Qed.

Lemma pdiv_byte pdiv : 0 <= pdiv <= 13 -> Z.land pdiv 15 = pdiv.
Proof.
  intros H.
  assert (A : forallb (fun p => Z.land p 15 =? p) (interval 0 14) = true)
    by (vm_compute; reflexivity).
  rewrite forallb_forall in A. apply Z.eqb_eq, A, in_interval. lia.
Qed.

Lemma none_valid_spec max_accel :
  none_valid max_accel = true ->
  forall pmul pdiv, ~ valid_pair max_accel pmul pdiv.
Proof.
  unfold none_valid. intros H pmul pdiv [[Hpm Hpd] V].
  rewrite forallb_forall in H.
  specialize (H pmul (in_interval 128 128 pmul ltac:(lia))).
  rewrite forallb_forall in H.
  specialize (H pdiv (in_interval 0 14 pdiv ltac:(lia))).
  rewrite V in H. discriminate.
Qed.

Lemma known_mode_eqb mode :
  ~ known_mode mode ->
  String.eqb mode "ramp" = false /\ String.eqb mode "hold" = false /\
  String.eqb mode "velocity" = false /\ String.eqb mode "soft" = false.
Proof.
  unfold known_mode. intros H.
  repeat split; apply String.eqb_neq; intros E; apply H; tauto.
Qed.

(** C3, as stated, fails: no pair of the ranges is valid for
    [max_accel = 5000], and [set_accel(5000)] reports nothing; it returns
    after writing [0x80] and [14] to PMUL_PDIV (what is left of
    [pmul = 256] and [pdiv = 14] after masking) and then A_MAX. *)
Lemma set_accel_counterexample :
  (forall pmul pdiv, ~ valid_pair 5000 pmul pdiv) /\
  pmul_loop 129 5000 128 0 false = Some (256, 14, false) /\
  exists s, set_accel 5000 fresh = inr s /\
            wire s = [[18; 0; 128; 14]; [12; 0; 3; 136]].
Proof.
  split; [apply none_valid_spec; vm_compute; reflexivity|].
  split; [vm_compute; reflexivity|].
  eexists. split; reflexivity.
Qed.

(** The search of [__init__], [set_accel(100)]: [pmul = 191], [pdiv = 5],
    since [191/100 * 2^-1 = 0.955]. *)
Example set_accel_100 :
  exists s, set_accel 100 fresh = inr s /\
            wire s = [[18; 0; 191; 5]; [12; 0; 0; 100]].
Proof. eexists. split; reflexivity. Qed.

(** C3, amended.  For every positive [max_accel], [set_accel] returns, having
    sent one datagram to PMUL_PDIV and one to A_MAX.  If some pair of the
    ranges is valid, bytes 2 and 3 of the first datagram are the first valid
    pair in the order of the search.  If none is, no failure is reported:
    the bytes are [0x80] and [14]. *)
Theorem set_accel_search (max_accel : Z) (s : state) :
  0 < max_accel -> well_formed s ->
  exists s' b2 b3,
    set_accel max_accel s = inr s' /\
    wire s' = wire s ++
      [[Z.lor (Z.shiftl PMUL_PDIV 1) 0; 0; b2; b3];
       [Z.lor (Z.shiftl A_MAX 1) 0; 0;
        Z.land (Z.shiftr max_accel 8) 7; Z.land max_accel 255]] /\
    ((exists pmul pdiv, valid_pair max_accel pmul pdiv) ->
       first_valid_pair max_accel b2 b3) /\
    ((forall pmul pdiv, ~ valid_pair max_accel pmul pdiv) ->
       b2 = 128 /\ b3 = 14).
Proof.
  intros Hm Hs. unfold set_accel.
  destruct (Z.eqb_spec max_accel 0) as [|_]; [lia|].
  destruct (pmul_loop_spec max_accel 129 128 0) as (pm & pd & v & E & Hfirst & Hv);
    try lia.
  rewrite E.
  destruct (send_datagram_wire (Z.lor (Z.shiftl PMUL_PDIV 1) 0) 0
              (Z.lor 128 (Z.land pm 127)) (Z.land pd 15) s Hs)
    as (W1 & _ & _ & Hs1).
  destruct (send_datagram_wire (Z.lor (Z.shiftl A_MAX 1) 0) 0
              (Z.land (Z.shiftr max_accel 8) 7) (Z.land max_accel 255) _ Hs1)
    as (W2 & _ & _ & _).
  eexists _, (Z.lor 128 (Z.land pm 127)), (Z.land pd 15).
  split; [reflexivity|]. split.
  - rewrite W2, W1, <- app_assoc. reflexivity.
  - destruct v.
    + destruct Hv as [[Hpm Hpd] V].
      rewrite (pmul_byte pm Hpm), (pdiv_byte pd Hpd). split.
      * intros _. split; [split; [split|]; assumption|].
        intros pmul' pdiv' VP. apply Hfirst; [destruct VP as [[? ?] ?]; lia | exact VP].
      * intros Hnone. exfalso. apply (Hnone pm pd). split; [split|]; assumption.
    + destruct Hv as [-> ->]. split.
      * intros (pmul & pdiv & VP).
        destruct (Hfirst pmul pdiv) as [F _]; [destruct VP as [[? ?] ?]; lia | exact VP |].
        discriminate.
      * intros _. split; reflexivity.
Qed.

Lemma set_accel_search_witness :
  (0 < 100 /\ well_formed fresh) /\
  exists s' b2 b3,
    set_accel 100 fresh = inr s' /\
    wire s' = wire fresh ++
      [[Z.lor (Z.shiftl PMUL_PDIV 1) 0; 0; b2; b3];
       [Z.lor (Z.shiftl A_MAX 1) 0; 0;
        Z.land (Z.shiftr 100 8) 7; Z.land 100 255]] /\
    ((exists pmul pdiv, valid_pair 100 pmul pdiv) ->
       first_valid_pair 100 b2 b3) /\
    ((forall pmul pdiv, ~ valid_pair 100 pmul pdiv) ->
       b2 = 128 /\ b3 = 14).
Proof.
  assert (H : 0 < 100 /\ well_formed fresh)
    by (split; [lia | split; reflexivity]).
  split; [exact H|].
  exact (set_accel_search 100 fresh (proj1 H) (proj2 H)).
Defined.

(** C9, as stated, fails: [set_mode("bogus")] returns like any other call;
    it sends no datagram and leaves the buffers and the mode register as
    they were, its one effect being the line it prints. *)
Lemma set_mode_counterexample :
  exists s, set_mode "bogus" fresh = inr s /\
            wire s = [] /\ TX_buf s = TX_buf fresh /\
            regs s RAMP_MODE = regs fresh RAMP_MODE /\
            console s = ["Invalid mode."].
Proof. eexists. repeat split. Qed.

(** C9, amended.  [set_mode] with a string other than "ramp", "hold",
    "velocity" and "soft" prints "Invalid mode." and returns: no error is
    raised, no datagram is sent, and nothing but the console changes. *)
Theorem set_mode_unknown (mode : string) (s : state) :
  ~ known_mode mode ->
  set_mode mode s = inr (print "Invalid mode." s).
Proof.
  intros H. destruct (known_mode_eqb mode H) as (E1 & E2 & E3 & E4).
  unfold set_mode. now rewrite E1, E2, E3, E4.
Qed.

Lemma set_mode_unknown_witness :
  ~ known_mode "bogus" /\
  set_mode "bogus" fresh = inr (print "Invalid mode." fresh).
Proof.
  assert (H : ~ known_mode "bogus")
    by (unfold known_mode; intros [E|[E|[E|E]]]; discriminate E).
  split; [exact H | exact (set_mode_unknown "bogus" fresh H)].
Defined.

Lemma testbit_255 n : 0 <= n -> Z.testbit 255 n = (n <? 8).
Proof.
  intros H. change 255 with (Z.ones 8). rewrite Z.testbit_ones by lia.
  destruct (Z.leb_spec 0 n); [reflexivity | lia].
Qed.

(** Three bytes cut from [t] and put together again: [t] modulo [2^24]. *)
Lemma payload_of_bytes b0 t :
  payload [b0; Z.land (Z.shiftr t 16) 255; Z.land (Z.shiftr t 8) 255;
           Z.land t 255] = t mod 2 ^ 24.
Proof.
  unfold payload, getitem. cbn [nth].
  apply Z.bits_inj'. intros n Hn.
  rewrite Z.testbit_mod_pow2 by lia.
  rewrite !Z.lor_spec, !Z.land_spec.
  rewrite !Z.shiftl_spec by lia.
  destruct (Z.ltb_spec n 8); [|destruct (Z.ltb_spec n 16); [|destruct (Z.ltb_spec n 24)]].
  - rewrite (Z.testbit_neg_r _ (n - 16)), (Z.testbit_neg_r _ (n - 8)) by lia.
    rewrite testbit_255 by lia.
    destruct (Z.ltb_spec n 8); [|lia]. destruct (Z.ltb_spec n 24); [|lia].
    cbn. now rewrite andb_true_r.
  - rewrite (Z.testbit_neg_r _ (n - 16)) by lia.
    rewrite !Z.land_spec, Z.shiftr_spec by lia.
    rewrite !testbit_255 by lia.
    destruct (Z.ltb_spec (n - 8) 8); [|lia]. destruct (Z.ltb_spec n 8); [lia|].
    destruct (Z.ltb_spec n 24); [|lia].
    replace (n - 8 + 8) with n by lia. cbn.
    now rewrite andb_true_r, andb_false_r, orb_false_r.
  - rewrite !Z.land_spec, !Z.shiftr_spec by lia.
    rewrite !testbit_255 by lia.
    destruct (Z.ltb_spec (n - 16) 8); [|lia]. destruct (Z.ltb_spec (n - 8) 8); [lia|].
    destruct (Z.ltb_spec n 8); [lia|]. destruct (Z.ltb_spec n 24); [|lia].
    replace (n - 16 + 16) with n by lia. cbn.
    now rewrite andb_true_r, !andb_false_r, !orb_false_r.
  - rewrite !Z.land_spec, !Z.shiftr_spec by lia.
    rewrite !testbit_255 by lia.
    destruct (Z.ltb_spec (n - 16) 8); [lia|]. destruct (Z.ltb_spec (n - 8) 8); [lia|].
    destruct (Z.ltb_spec n 8); [lia|]. destruct (Z.ltb_spec n 24); [lia|].
    cbn. now rewrite !andb_false_r.
Qed.

(** A write datagram stores its payload; a read datagram fetches one. *)
Lemma send_write b0 b1 b2 b3 s :
  well_formed s -> Z.testbit b0 0 = false ->
  send_datagram b0 b1 b2 b3 s =
  mkState [b0; b1; b2; b3] (RX_buf s)
    (fun a => if a =? Z.shiftr b0 1 then payload [b0; b1; b2; b3] else regs s a)
    (wire s ++ [[b0; b1; b2; b3]]) (console s).
Proof.
  intros [HT HR] Hw. destruct (four_bytes _ HT) as (a & b & c & d & E).
  unfold send_datagram, transaction, set_TX.
  cbn [TX_buf RX_buf regs wire console]. rewrite E. cbn [setitem].
  unfold chip_exchange. change (getitem 0 [b0; b1; b2; b3]) with b0.
  now rewrite Hw.
Qed.

Lemma send_read b0 b1 b2 b3 s :
  well_formed s -> Z.testbit b0 0 = true ->
  send_datagram b0 b1 b2 b3 s =
  mkState [b0; b1; b2; b3]
    [0; Z.land (Z.shiftr (regs s (Z.shiftr b0 1)) 16) 255;
     Z.land (Z.shiftr (regs s (Z.shiftr b0 1)) 8) 255;
     Z.land (regs s (Z.shiftr b0 1)) 255]
    (regs s) (wire s ++ [[b0; b1; b2; b3]]) (console s).
Proof.
  intros [HT HR] Hr. destruct (four_bytes _ HT) as (a & b & c & d & E).
  unfold send_datagram, transaction, set_TX.
  cbn [TX_buf RX_buf regs wire console]. rewrite E. cbn [setitem].
  unfold chip_exchange. change (getitem 0 [b0; b1; b2; b3]) with b0.
  now rewrite Hr.
Qed.


End DriverProofs.

Module DriverAngles.

Import Driver DriverSpec DriverProofs.
Local Open Scope R_scope.









End DriverAngles.

(* ================================================================== *)
(** ** The coordination task: the scenario and the PD-with-pen-up pass (C5, C10) *)
(* ================================================================== *)

Module CoordinationProofs.

Import Stdlib.Strings.String.
Import Resampler Kinematics Coordination CoordinationSpec.
Local Open Scope string_scope.
Local Open Scope list_scope.
Local Open Scope Z_scope.




(** The first pass sets the pen flag to down, whatever the actuator does. *)
Lemma init_pass elements arr stream :
  task_main elements arr (not_started stream) =
    Some (mkLocals S1_PLOT 0 false true stream None false, [OpenSend]).
Proof. reflexivity. Qed.




(** PD with the pen flag up: the pen is engaged, no motor is asked. *)
Lemma pass_engage elements arr l c :
  state l = S1_PLOT -> step l < elements - 1 -> pen_is_up l = true ->
  current l = Some c -> loc c = PD ->
  task_main elements arr l =
    Some (mkLocals S1_PLOT (step l) false false
            (if update l then tl (send l) else send l) (Some c) (printed l),
          fetched l c ++ PenDown :: targets c).
Proof.
  intros Hst Hstep Hpen Hcur Hloc.
  unfold task_main, fetch, fetched. rewrite Hst.
  cbn [Z.eqb S0_INIT S1_PLOT Pos.eqb].
  apply Z.ltb_lt in Hstep. rewrite Hstep.
  unfold current in Hcur. destruct (update l) eqn:U.
  - destruct (send l) as [|c0 rest]; [discriminate|].
    cbn in Hcur. injection Hcur as ->.
    cbn [data state step update send printed tl]. unfold dispatch.
    cbn [pen_is_up state step update send data printed].
    rewrite Hloc, Hpen. reflexivity.
  - rewrite Hcur. unfold dispatch. rewrite Hloc, Hpen, Hst, U, Hcur.
    reflexivity.
Qed.

(** PD with the pen flag down: the targets are sent, the motors are asked,
    and the step index moves on when both have arrived. *)
Lemma pass_polled elements arr l c :
  state l = S1_PLOT -> step l < elements - 1 -> update l = false ->
  data l = Some c -> loc c = PD -> pen_is_up l = false ->
  task_main elements arr l =
    Some (if fst arr && snd arr
          then mkLocals S1_PLOT (step l + 1) false true (send l) (Some c)
                 (printed l)
          else l,
          poll c arr).
Proof.
  intros Hst Hstep Hup Hdata Hloc Hpen.
  unfold task_main, fetch, dispatch, targets_then_advance, poll, targets.
  rewrite Hst. cbn [Z.eqb S0_INIT S1_PLOT Pos.eqb].
  apply Z.ltb_lt in Hstep. rewrite Hstep, Hup, Hdata, Hloc, Hpen.
  destruct arr as [[|] [|]]; cbn; rewrite ?Hst, ?Hpen, ?Hdata; reflexivity.
Qed.





(** C10.  A pass of the plotting state that finds a PD line to dispatch
    while the pen flag is up engages the pen, sets the flag to down and
    sends the joint targets; it asks no motor, and leaves the step index
    and the flag [update] as the fetch left them.  The next pass reads no
    line: it dispatches the same line through the branch for PD with the
    pen down, which sends the targets again and advances the step index,
    setting [update], exactly when both motors have arrived. *)
Theorem down_while_up_redispatch (elements : Z) (arr arr' : bool * bool)
    (l : locals) (c : MotionCommand) :
  state l = S1_PLOT -> step l < elements - 1 -> pen_is_up l = true ->
  current l = Some c -> loc c = PD ->
  let l1 := mkLocals S1_PLOT (step l) false false
              (if update l then tl (send l) else send l) (Some c) (printed l) in
  task_main elements arr l = Some (l1, fetched l c ++ PenDown :: targets c) /\
  task_main elements arr' l1 =
    Some (if fst arr' && snd arr'
          then mkLocals S1_PLOT (step l + 1) false true (send l1) (Some c)
                 (printed l)
          else l1,
          poll c arr').
Proof.
  intros Hst Hstep Hpen Hcur Hloc l1. split.
  - now apply pass_engage.
  - exact (pass_polled elements arr' l1 c eq_refl Hstep eq_refl eq_refl Hloc
             eq_refl).
Qed.

Lemma down_while_up_redispatch_witness :
  (state (plotting_pen_up [pen_down_00; pen_up_11]) = S1_PLOT /\
   step (plotting_pen_up [pen_down_00; pen_up_11]) < 2 - 1 /\
   pen_is_up (plotting_pen_up [pen_down_00; pen_up_11]) = true /\
   current (plotting_pen_up [pen_down_00; pen_up_11]) = Some pen_down_00 /\
   loc pen_down_00 = PD) /\
  task_main 2 (true, true) (plotting_pen_up [pen_down_00; pen_up_11]) =
    Some (mkLocals S1_PLOT 0 false false [pen_up_11] (Some pen_down_00) false,
          [PrintLine "Send coordinate updated"; ReadLine;
           UartWrite 0 0 (1 / 3)%R; PenDown;
           SetTargetPos motor1 1%R; SetTargetPos motor2 2%R]) /\
  task_main 2 (true, true)
       (mkLocals S1_PLOT 0 false false [pen_up_11] (Some pen_down_00) false) =
    Some (mkLocals S1_PLOT 1 false true [pen_up_11] (Some pen_down_00) false,
          [SetTargetPos motor1 1%R; SetTargetPos motor2 2%R;
           Arrived motor1 true; Arrived motor2 true]).
Proof.
  assert (H : state (plotting_pen_up [pen_down_00; pen_up_11]) = S1_PLOT /\
              step (plotting_pen_up [pen_down_00; pen_up_11]) < 2 - 1 /\
              pen_is_up (plotting_pen_up [pen_down_00; pen_up_11]) = true /\
              current (plotting_pen_up [pen_down_00; pen_up_11]) = Some pen_down_00 /\
              loc pen_down_00 = PD)
    by (repeat split).
  split; [exact H|].
  destruct H as (H1 & H2 & H3 & H4 & H5).
  exact (down_while_up_redispatch 2 (true, true) (true, true)
           (plotting_pen_up [pen_down_00; pen_up_11]) pen_down_00
           H1 H2 H3 H4 H5).
Defined.

End CoordinationProofs.

(* ================================================================== *)
(** ** The resampler: [linspace], the output in closed form, its length *)
(* ================================================================== *)

Module ResamplerMore.
Import Resampler ResamplerSpec ResamplerProofs ResamplerCount.
Local Open Scope Q_scope.





Lemma cuts_le STEPS : (cuts STEPS <= length STEPS - 1)%nat.
Proof.
  induction STEPS as [|c [|c' rest] IH]; cbn [cuts length] in *; try lia.
  destruct (subdivided c c' && too_far c c'); lia.
Qed.

Lemma emit_all_count STEPS :
  match emit_all STEPS with
  | Finished out => length out = (length STEPS + cuts STEPS)%nat
  | Raised _ out => (length out <= 2 * (length STEPS - 1))%nat
  end.
Proof.
  induction STEPS as [|c rest IH]; [reflexivity|].
  cbn [emit_all].
  destruct (body_of c (hd_error rest)) as [e|ws] eqn:B; [cbn; lia|].
  apply body_of_cases in B.
  destruct rest as [|c' rest']; cbn [hd_error] in B.
  - destruct B as [[-> _] | (c2 & E & _)]; [reflexivity | discriminate].
  - assert (L : length ws = (1 + if subdivided c c' && too_far c c' then 1 else 0)%nat).
    { destruct B as [[-> Hnear] | (c2 & E & Hsub & Hfar & ->)].
      - specialize (Hnear c' eq_refl).
        destruct (subdivided c c'); [now rewrite Hnear | reflexivity].
      - injection E as <-. now rewrite Hsub, Hfar. }
    destruct (emit_all (c' :: rest')) as [out|e out]; cbn [prepend];
      rewrite length_app, L; cbn [cuts length] in *;
      destruct (subdivided c c' && too_far c c'); lia.
Qed.



(** X3.  When the loop runs to its end, the number of lines it has written
    ([elements]) is the number of commands plus the number of segments it
    cut in two, which lies between [len(STEPS)] and [2 * len(STEPS) - 1].
    When it is left by an exception, at most [2 * (len(STEPS) - 1)] lines
    were written. *)
Theorem elements_count (STEPS : list RawCommand) :
  match interpolate STEPS with
  | Finished out =>
      elements (Finished out) = (length STEPS + cuts STEPS)%nat /\
      (length STEPS <= elements (Finished out) <= 2 * length STEPS - 1)%nat
  | Raised e out => (elements (Raised e out) <= 2 * (length STEPS - 1))%nat
  end.
Proof.
  rewrite interpolate_emit_all.
  pose proof (emit_all_count STEPS) as H. pose proof (cuts_le STEPS) as C.
  destruct (emit_all STEPS) as [out|e out]; unfold elements; cbn [written].
  - split; [exact H|]. destruct STEPS; cbn [length] in *; lia.
  - exact H.
Qed.



End ResamplerMore.

(* ================================================================== *)
(** ** The parser: what a line is parsed into *)
(* ================================================================== *)

Module ParserProofs.

Import Stdlib.Strings.String Stdlib.Strings.Ascii.
Import Resampler Parser ParserSpec.
Local Open Scope string_scope.
Local Open Scope list_scope.

Lemma within_app allowed s1 s2 :
  within allowed (s1 ++ s2) = within allowed s1 && within allowed s2.
Proof.
  induction s1 as [|c s1 IH]; cbn; [reflexivity|].
  now rewrite IH, andb_assoc.
Qed.

Lemma mem_within c allowed s :
  within allowed s = true -> mem c s = true -> mem c allowed = true.
Proof.
  induction s as [|d s IH]; cbn; [discriminate|].
  intros H M. apply andb_true_iff in H. destruct H as [H1 H2].
  apply orb_true_iff in M. destruct M as [M|M]; [|now apply IH].
  apply Ascii.eqb_eq in M. now subst.
Qed.

(** A character that does not occur. *)
Lemma absent c allowed s :
  within allowed s = true -> mem c allowed = false -> mem c s = false.
Proof.
  intros W A. destruct (mem c s) eqn:M; [|reflexivity].
  now rewrite (mem_within c allowed s W M) in A.
Qed.

Lemma contains_two_chars a b s :
  mem b s = false -> contains (String a (String b EmptyString)) s = false.
Proof.
  induction s as [|c s IH]; [reflexivity|].
  cbn [mem]. intros M. apply orb_false_iff in M. destruct M as [M1 M2].
  cbn [contains]. rewrite (IH M2), orb_false_r.
  cbn [prefix]. destruct (ascii_dec a c) as [_|_]; [|reflexivity].
  destruct s as [|d s]; [reflexivity|].
  cbn [mem] in M2. apply orb_false_iff in M2. destruct M2 as [M2 _].
  cbn [prefix]. destruct (ascii_dec b d) as [->|_]; [|reflexivity].
  now rewrite Ascii.eqb_refl in M2.
Qed.

Lemma contains_one_char a s :
  contains (String a EmptyString) s = mem a s.
Proof.
  induction s as [|c s IH]; [reflexivity|].
  cbn [contains mem prefix]. rewrite IH.
  destruct (ascii_dec a c) as [->|N].
  - rewrite Ascii.eqb_refl. now destruct s.
  - apply Ascii.eqb_neq in N. now rewrite N.
Qed.

Lemma split_without sep s :
  mem sep s = false -> split sep s = [s].
Proof.
  induction s as [|c s IH]; [reflexivity|].
  cbn [mem split]. intros M. apply orb_false_iff in M. destruct M as [M1 M2].
  rewrite Ascii.eqb_sym in M1. rewrite M1, (IH M2). reflexivity.
Qed.

Lemma split_app sep s1 s2 :
  mem sep s1 = false ->
  split sep (s1 ++ String sep s2) = s1 :: split sep s2.
Proof.
  induction s1 as [|c s1 IH]; cbn [append mem split].
  - intros _. now rewrite Ascii.eqb_refl.
  - intros M. apply orb_false_iff in M. destruct M as [M1 M2].
    rewrite Ascii.eqb_sym in M1. rewrite M1, (IH M2). reflexivity.
Qed.

Lemma join_cons sep a b l :
  join sep (a :: b :: l) = (a ++ sep ++ join sep (b :: l))%string.
Proof. reflexivity. Qed.

(** Splitting what was joined gives the pieces back. *)
Lemma split_join sep piece pieces :
  Forall (fun s => mem sep s = false) (piece :: pieces) ->
  split sep (join (String sep EmptyString) (piece :: pieces)) = piece :: pieces.
Proof.
  revert piece. induction pieces as [|p pieces IH]; intros piece H.
  - apply split_without. now inversion H.
  - rewrite join_cons. inversion H as [|? ? H1 H2]; subst.
    cbn [append]. rewrite split_app by exact H1.
    now rewrite (IH p H2).
Qed.

Lemma lstrip_without chars s :
  (forall c, mem c s = true -> mem c chars = false) -> lstrip chars s = s.
Proof.
  destruct s as [|c s]; [reflexivity|]. intros H. cbn [lstrip].
  rewrite (H c); [reflexivity|]. cbn. now rewrite Ascii.eqb_refl.
Qed.

Lemma rstrip_without chars s :
  (forall c, mem c s = true -> mem c chars = false) -> rstrip chars s = s.
Proof.
  induction s as [|c s IH]; [reflexivity|]. intros H. cbn [rstrip].
  rewrite IH.
  - destruct s; [|reflexivity].
    rewrite (H c); [reflexivity|]. cbn. now rewrite Ascii.eqb_refl.
  - intros d M. apply H. cbn. now rewrite M, orb_true_r.
Qed.

Lemma mem_app c s1 s2 : mem c (s1 ++ s2) = mem c s1 || mem c s2.
Proof.
  induction s1 as [|d s1 IH]; cbn; [reflexivity|].
  now rewrite IH, orb_assoc.
Qed.

Lemma within_uint d :
  within numeric (DecimalString.NilEmpty.string_of_uint d) = true.
Proof. induction d; cbn; auto. Qed.

Lemma within_nilzero d :
  within numeric (DecimalString.NilZero.string_of_uint d) = true.
Proof. destruct d; first [reflexivity | apply within_uint]. Qed.

Lemma within_show z : within numeric (show z) = true.
Proof.
  unfold show, DecimalString.NilZero.string_of_int.
  destruct (Z.to_int z) as [d|d]; [apply within_nilzero|].
  cbn [within]. now rewrite within_nilzero.
Qed.

Lemma within_join allowed sep pieces :
  within allowed sep = true ->
  Forall (fun s => within allowed s = true) pieces ->
  within allowed (join sep pieces) = true.
Proof.
  intros Hs H. induction H as [|p pieces Hp _ IH]; [reflexivity|].
  destruct pieces as [|q pieces]; [exact Hp|].
  rewrite join_cons, !within_app, Hp, Hs, IH. reflexivity.
Qed.

(** A larger alphabet. *)
Lemma within_more allowed allowed' s :
  within allowed' allowed = true -> within allowed s = true ->
  within allowed' s = true.
Proof.
  intros A. induction s as [|c s IH]; [reflexivity|]. cbn [within].
  intros H. apply andb_true_iff in H. destruct H as [H1 H2].
  rewrite (IH H2), andb_true_r.
  destruct (mem c allowed') eqn:M; [reflexivity|].
  now rewrite (absent c allowed' allowed A M) in H1.
Qed.

Lemma fields_numeric numbers :
  Forall (fun s => within numeric s = true) (map show numbers).
Proof. apply Forall_map, Forall_forall. intros z _. apply within_show. Qed.

(** The text after the name of a pen command. *)
Lemma within_fields allowed numbers :
  within allowed ",-0123456789" = true ->
  within allowed (join "," (map show numbers)) = true.
Proof.
  intros A. apply (within_more ",-0123456789"); [exact A|].
  apply within_join; [reflexivity|].
  eapply Forall_impl; [|apply fields_numeric].
  intros s H. now apply (within_more numeric).
Qed.

Section WithInt.

Variable int : string -> option Z.
Hypothesis int_show : forall z, int (show z) = Some z.

(** The loop over the fields of a pen command. *)
Lemma coord_loop_fields_both kind numbers :
  (forall x STEPS, exists x',
      coord_loop int kind (map show numbers) true x STEPS =
      inr (x', STEPS ++ map (fun p => mkRaw kind (fst p) (snd p)) (pairs numbers))) /\
  (forall a x STEPS, exists x',
      coord_loop int kind (map show (a :: numbers)) true x STEPS =
      inr (x', STEPS ++ map (fun p => mkRaw kind (fst p) (snd p))
                          (pairs (a :: numbers)))).
Proof.
  induction numbers as [|b rest [IH1 IH2]].
  - split.
    + intros x STEPS. exists x. cbn. now rewrite app_nil_r.
    + intros a x STEPS. exists (Some a). cbn. now rewrite int_show, app_nil_r.
  - split; [apply IH2|].
    intros a x STEPS.
    destruct (IH1 (Some a) (STEPS ++ [mkRaw kind a b])) as [x' E].
    exists x'. cbn [map coord_loop pairs]. rewrite !int_show.
    cbn [map] in E. rewrite E.
    cbn [fst snd]. now rewrite <- app_assoc.
Qed.

Lemma coord_loop_fields kind numbers x STEPS :
  exists x',
    coord_loop int kind (map show numbers) true x STEPS =
    inr (x', STEPS ++ map (fun p => mkRaw kind (fst p) (snd p)) (pairs numbers)).
Proof. apply coord_loop_fields_both. Qed.

Lemma prefix_app s t : prefix s (s ++ t) = true.
Proof.
  induction s as [|c s IH]; cbn [append prefix]; [now destruct t|].
  destruct (ascii_dec c c) as [_|N]; [exact IH | now elim N].
Qed.

Lemma contains_prefix sub t : contains sub (sub ++ t) = true.
Proof.
  destruct (sub ++ t)%string eqn:E; cbn [contains]; rewrite <- E, prefix_app;
    reflexivity.
Qed.

Lemma strip_name kind body :
  within ",-0123456789" body = true ->
  strip (name kind) (name kind ++ body) = body.
Proof.
  intros W.
  assert (A : forall c, mem c body = true -> mem c (name kind) = false).
  { intros c M. pose proof (mem_within c _ _ W M) as N.
    destruct (mem c (name kind)) eqn:K; [|reflexivity].
    destruct kind; cbn [name mem] in K;
      repeat (apply orb_true_iff in K; destruct K as [K|K];
              [apply Ascii.eqb_eq in K; subst c; discriminate N|]);
      discriminate K. }
  unfold strip.
  replace (lstrip (name kind) (name kind ++ body)) with (lstrip (name kind) body)
    by (destruct kind; reflexivity).
  rewrite lstrip_without by exact A. now apply rstrip_without.
Qed.

(** The body of the loop for a pen command and the numbers after it. *)
Lemma command_body_move kind numbers x STEPS :
  exists x',
    command_body int (text_of (Move kind numbers)) x STEPS =
    inr (x', STEPS ++ tuples (Move kind numbers)).
Proof.
  cbn [text_of tuples]. unfold command_body.
  set (body := join "," (map show numbers)).
  assert (W : within ",-0123456789" body = true)
    by (apply within_fields; reflexivity).
  assert (PU_found : contains "PU" (name kind ++ body) =
                     match kind with PU => true | PD => false end).
  { destruct kind; cbn [name].
    - apply contains_prefix.
    - apply contains_two_chars. rewrite mem_app.
      now rewrite (absent "U" _ _ W eq_refl). }
  assert (PD_found : contains "PD" (name PD ++ body) = true).
  { apply contains_prefix. }
  assert (comma : contains "," (name kind ++ body) = mem "," body).
  { rewrite contains_one_char, mem_app. now destruct kind. }
  assert (S : strip (name kind) (name kind ++ body) = body)
    by (apply strip_name; exact W).
  assert (L : mem "," body = true ->
              split "," body = map show numbers).
  { intros M. destruct numbers as [|a numbers]; [discriminate M|].
    unfold body. cbn [map]. apply split_join.
    pose proof (fields_numeric (a :: numbers)) as F. cbn [map] in F.
    eapply Forall_impl; [|exact F].
    intros t H. now apply (absent "," numeric). }
  assert (T : mem "," body = false ->
              map (fun p => mkRaw kind (fst p) (snd p)) (pairs numbers) = []).
  { destruct numbers as [|a [|b rest]]; try reflexivity.
    unfold body. cbn [map]. rewrite join_cons, mem_app. cbn [append mem].
    rewrite Ascii.eqb_refl, orb_true_r. discriminate. }
  rewrite PU_found, comma.
  destruct (mem "," body) eqn:M.
  - specialize (L eq_refl).
    destruct kind; cbn [name] in *; [|rewrite PD_found]; rewrite S, L;
      apply coord_loop_fields.
  - rewrite (T eq_refl), app_nil_r. exists x.
    destruct kind; cbn [name] in *; [|rewrite PD_found]; reflexivity.
Qed.

Lemma command_body_other text x STEPS :
  contains "PU" text = false -> contains "PD" text = false ->
  command_body int text x STEPS = inr (x, STEPS).
Proof. intros H1 H2. unfold command_body. now rewrite H1, H2. Qed.

Lemma command_loop_commands cs : forall x STEPS,
  Forall plain cs ->
  exists x',
    command_loop int (map text_of cs) x STEPS = inr (x', STEPS ++ flat_map tuples cs).
Proof.
  induction cs as [|c cs IH]; intros x STEPS H.
  - exists x. cbn. now rewrite app_nil_r.
  - inversion H as [|? ? Hc Hcs]; subst. cbn [map command_loop flat_map].
    destruct c as [kind numbers | text].
    + destruct (command_body_move kind numbers x STEPS) as [x1 ->].
      destruct (IH x1 (STEPS ++ tuples (Move kind numbers)) Hcs) as [x2 ->].
      exists x2. now rewrite <- app_assoc.
    + destruct Hc as (_ & H1 & H2). cbn [text_of tuples].
      rewrite (command_body_other text x STEPS H1 H2).
      destruct (IH x STEPS Hcs) as [x2 ->]. now exists x2.
Qed.

Lemma no_separator c : plain c -> mem ";" (text_of c) = false.
Proof.
  destruct c as [kind numbers | text]; cbn [plain text_of].
  - intros _. rewrite mem_app.
    rewrite (absent ";" ",-0123456789" (join "," (map show numbers)))
      by (apply within_fields || reflexivity; reflexivity).
    now destruct kind.
  - intros (H & _). now rewrite <- contains_one_char.
Qed.

End WithInt.

(** With the flag [xbool] set, or [x] bound, no field finds [x] unbound. *)
Lemma coord_loop_bound int kind coords : forall xbool x STEPS,
  (xbool = false -> x <> None) ->
  coord_loop int kind coords xbool x STEPS <> inl NameError /\
  forall x' STEPS',
    coord_loop int kind coords xbool x STEPS = inr (x', STEPS') ->
    x <> None -> x' <> None.
Proof.
  induction coords as [|coord rest IH]; intros xbool x STEPS H; cbn [coord_loop].
  - split; [discriminate|]. intros x' STEPS' E. now injection E as <- _.
  - destruct (int coord) as [v|]; [|split; discriminate].
    destruct xbool.
    + destruct (IH false (Some v) STEPS ltac:(discriminate)) as [A B].
      split; [exact A|]. intros x' STEPS' E _. apply (B x' STEPS' E). discriminate.
    + destruct x as [x0|]; [|now elim (H eq_refl)].
      apply IH. discriminate.
Qed.

Lemma int_decimal_show z : int_decimal (show z) = Some z.
Proof.
  unfold int_decimal, show.
  rewrite DecimalString.NilZero.isi.
  - cbn [option_map]. now rewrite DecimalZ.of_to.
  - destruct z; cbn; try discriminate.
    intros E. injection E as E. now apply DecimalPos.Unsigned.to_uint_nonnil in E.
  - destruct z; cbn; try discriminate.
    intros E. injection E as E. now apply DecimalPos.Unsigned.to_uint_nonnil in E.
Qed.

(** X5.  A line of commands separated by [;], each a pen command (PU or
    PD followed by decimal integers separated by commas) or a text that
    holds no [;], no "PU" and no "PD", is parsed into the tuples of its pen
    commands, in order: the numbers of a command are taken two by two, a
    last number without a partner is dropped, and a pen command with fewer
    than two numbers gives no tuple.  What is used of [int] is that it reads
    back what [str] writes. *)
Theorem parse_line_of_commands (int : string -> option Z) (cs : list hpgl) :
  (forall z, int (show z) = Some z) -> Forall plain cs ->
  parse int (line_of_commands cs) = inr (flat_map tuples cs).
Proof.
  intros Hint H. unfold parse, line_of_commands.
  destruct cs as [|c cs]; [reflexivity|].
  cbn [map]. rewrite split_join.
  - destruct (command_loop_commands int Hint (c :: cs) None [] H) as [x' E].
    cbn [map] in E. now rewrite E.
  - change (Forall (fun s => mem ";" s = false) (map text_of (c :: cs))).
    apply Forall_map. eapply Forall_impl; [|exact H].
    intros a. apply no_separator.
Qed.

Lemma parse_line_of_commands_witness :
  ((forall z, int_decimal (show z) = Some z) /\ Forall plain sample_line) /\
  parse int_decimal "IN;SP1;PU0,0;PD100,0,100,-50,7;PU;" =
    inr [mkRaw PU 0 0; mkRaw PD 100 0; mkRaw PD 100 (-50)].
Proof.
  assert (H : (forall z, int_decimal (show z) = Some z) /\ Forall plain sample_line).
  { split; [exact int_decimal_show|]. repeat constructor. }
  split; [exact H|].
  exact (parse_line_of_commands int_decimal sample_line (proj1 H) (proj2 H)).
Defined.

Lemma command_body_bound int command x STEPS :
  command_body int command x STEPS <> inl NameError /\
  forall x' STEPS',
    command_body int command x STEPS = inr (x', STEPS') -> x <> None -> x' <> None.
Proof.
  unfold command_body.
  destruct (contains "PU" command), (contains "," command),
    (contains "PD" command);
    first [ apply coord_loop_bound; discriminate
          | split; [discriminate | intros x' STEPS' E; now injection E as <- _] ].
Qed.

Lemma command_loop_bound int commands : forall x STEPS,
  command_loop int commands x STEPS <> inl NameError.
Proof.
  induction commands as [|c rest IH]; intros x STEPS; cbn [command_loop];
    [discriminate|].
  destruct (command_body_bound int c x STEPS) as [A _].
  destruct (command_body int c x STEPS) as [[]|[x' STEPS']];
    [discriminate | now elim A | apply IH].
Qed.

(** X6.  Whatever the line holds and whatever [int] does, the parser
    never reads [x] before it is bound: the only exception it can raise is
    the ValueError of [int] on a field. *)
Theorem parse_raises_only_value_error (int : string -> option Z)
    (command_list : string) :
  parse int command_list <> inl NameError.
Proof.
  unfold parse.
  pose proof (command_loop_bound int (split ";" command_list) None []) as H.
  destruct (command_loop int (split ";" command_list) None []) as [[]|[x STEPS]];
    [discriminate | now elim H | discriminate].
Qed.

Lemma split_not_nil sep s : split sep s <> [].
Proof.
  destruct s as [|c s]; cbn [split]; [discriminate|].
  destruct (Ascii.eqb c sep); [discriminate|].
  destruct (split sep s); discriminate.
Qed.

Lemma split_at sep s1 s2 :
  split sep (s1 ++ String sep s2) = split sep s1 ++ split sep s2.
Proof.
  induction s1 as [|c s1 IH]; cbn [append split].
  - now rewrite Ascii.eqb_refl.
  - rewrite IH. destruct (Ascii.eqb c sep); [reflexivity|].
    pose proof (split_not_nil sep s1) as N.
    destruct (split sep s1) as [|p ps]; [now elim N | reflexivity].
Qed.

Lemma coord_loop_after_bound int kind coords : forall xbool v STEPS,
  coord_loop int kind coords xbool (Some v) STEPS =
  after None STEPS (coord_loop int kind coords xbool (Some v) []).
Proof.
  induction coords as [|coord rest IH]; intros xbool v STEPS; cbn [coord_loop].
  - cbn. now rewrite app_nil_r.
  - destruct (int coord) as [w|]; [|reflexivity].
    destruct xbool.
    + apply IH.
    + rewrite IH, (IH true v ([] ++ [mkRaw kind v w])).
      destruct (coord_loop int kind rest true (Some v) []) as [e|[x' S']];
        [reflexivity|].
      cbn. destruct x'; now rewrite <- app_assoc.
Qed.

Lemma coord_loop_after int kind coords x STEPS :
  coord_loop int kind coords true x STEPS =
  after x STEPS (coord_loop int kind coords true None []).
Proof.
  destruct coords as [|coord rest]; cbn [coord_loop].
  - cbn. now rewrite app_nil_r.
  - destruct (int coord) as [w|]; [|reflexivity].
    rewrite coord_loop_after_bound.
    destruct (coord_loop_bound int kind rest false (Some w) [] ltac:(discriminate))
      as [_ B].
    destruct (coord_loop int kind rest false (Some w) []) as [e|[x' S']];
      [reflexivity|].
    specialize (B x' S' eq_refl ltac:(discriminate)).
    destruct x'; [reflexivity | now elim B].
Qed.

Lemma command_body_after int command x STEPS :
  command_body int command x STEPS =
  after x STEPS (command_body int command None []).
Proof.
  unfold command_body.
  destruct (contains "PU" command), (contains "," command),
    (contains "PD" command);
    first [apply coord_loop_after | cbn; now rewrite app_nil_r].
Qed.

Lemma after_after x STEPS x1 S1 r :
  after x STEPS (after x1 S1 r) =
  after (match x1 with None => x | Some _ => x1 end) (STEPS ++ S1) r.
Proof.
  destruct r as [e|[x' S']]; [reflexivity|]. cbn.
  rewrite app_assoc. now destruct x', x1.
Qed.

Lemma command_loop_after int commands : forall x STEPS,
  command_loop int commands x STEPS =
  after x STEPS (command_loop int commands None []).
Proof.
  induction commands as [|c rest IH]; intros x STEPS; cbn [command_loop].
  - cbn. now rewrite app_nil_r.
  - rewrite command_body_after.
    destruct (command_body int c None []) as [e|[x1 S1]]; [reflexivity|].
    cbn [after]. rewrite IH, (IH x1 S1), after_after.
    destruct x1; reflexivity.
Qed.

Lemma command_loop_app int cs1 : forall cs2 x STEPS,
  command_loop int (cs1 ++ cs2) x STEPS =
  match command_loop int cs1 x STEPS with
  | inl e => inl e
  | inr (x', STEPS') => command_loop int cs2 x' STEPS'
  end.
Proof.
  induction cs1 as [|c cs1 IH]; intros cs2 x STEPS; cbn [app command_loop];
    [reflexivity|].
  destruct (command_body int c x STEPS) as [e|[x' S']]; [reflexivity | apply IH].
Qed.

(** X7.  The commands of a line are parsed one by one, and nothing is
    carried from one to the next: the tuples of [a;b] are those of [a]
    followed by those of [b], and the line raises when [a] raises, or [a]
    does not and [b] does.  (A number left without a partner at the end of
    a command is not paired with the first number of the next.) *)
Theorem parse_per_command (int : string -> option Z) (a b : string) :
  parse int (a ++ String ";" b) =
  match parse int a, parse int b with
  | inl e, _ => inl e
  | inr _, inl e => inl e
  | inr A, inr B => inr (A ++ B)
  end.
Proof.
  unfold parse. rewrite split_at, command_loop_app.
  destruct (command_loop int (split ";" a) None []) as [e|[x1 A]]; [reflexivity|].
  rewrite command_loop_after.
  destruct (command_loop int (split ";" b) None []) as [e|[x2 B]]; reflexivity.
Qed.

End ParserProofs.

(* ================================================================== *)
(** ** The solver: singular Jacobian, threshold, the lines of Send.txt *)
(* ================================================================== *)

Module SolverProofs.
Import Kinematics KinematicsSpec KinematicsProofs SolverSpec.
Local Open Scope R_scope.

Lemma det_dg_dtheta theta :
  det (dg_dtheta theta) = - (16 * v1 theta) / (3 * (PI * PI)).
Proof.
  unfold det, dg_dtheta. cbn [m00 m01 m10 m11].
  pose proof (sin2_cos2 (v0 theta / 3)) as T. unfold Rsqr in T.
  pose proof PI_neq0 as P.
  replace (1 / 3 * (4 / PI * v1 theta) * sin (v0 theta / 3) * (-4 / PI * sin (v0 theta / 3)) -
           -4 / PI * cos (v0 theta / 3) * (-1 / 3 * (4 / PI * v1 theta) * cos (v0 theta / 3)))
    with (- (16 * v1 theta) / (3 * (PI * PI)) *
          (sin (v0 theta / 3) * sin (v0 theta / 3) + cos (v0 theta / 3) * cos (v0 theta / 3)))
    by (field; exact P).
  rewrite T. ring.
Qed.

(** X8.  The matrix [dg_dtheta(theta)] has determinant
    [-16 theta2 / (3 PI^2)]: [np.linalg.inv] fails on it, and with it the
    update of [NewtonRaphson] for [g], exactly when [theta[1][0]] is 0. *)
Theorem jacobian_singular_iff (x theta : vec2) :
  det (dg_dtheta theta) = - (16 * v1 theta) / (3 * (PI * PI)) /\
  (inv (dg_dtheta theta) = None <-> v1 theta = 0) /\
  (update (fun t => g x t) dg_dtheta theta = None <-> v1 theta = 0).
Proof.
  pose proof PI_RGT_0 as P.
  assert (D : det (dg_dtheta theta) = 0 <-> v1 theta = 0).
  { rewrite det_dg_dtheta. split.
    - intros H.
      assert (Q : 0 < 3 * (PI * PI)) by nra.
      apply (Rmult_eq_compat_r (3 * (PI * PI))) in H.
      replace (- (16 * v1 theta) / (3 * (PI * PI)) * (3 * (PI * PI)))
        with (- (16 * v1 theta)) in H by (field; lra).
      lra.
    - intros ->. field. lra. }
  assert (V : inv (dg_dtheta theta) = None <-> v1 theta = 0).
  { rewrite <- D. unfold inv.
    destruct (Req_dec_T (det (dg_dtheta theta)) 0) as [E|E]; split; intros H;
      try reflexivity; try assumption; try discriminate; contradiction. }
  split; [apply det_dg_dtheta|]. split; [exact V|].
  rewrite <- V. unfold update.
  destruct (inv (dg_dtheta theta)); split; intros H; try reflexivity; discriminate.
Qed.

Lemma below_negative gv thresh : thresh < 0 -> below gv thresh = false.
Proof.
  intros H. unfold below. pose proof (Rabs_pos (v0 gv)).
  destruct (Rle_dec (Rabs (v0 gv)) thresh); [lra | reflexivity].
Qed.

(** X9.  With a negative [thresh] the test that ends the loop never holds:
    [NewtonRaphson] returns nothing, whatever the functions and the guess
    and however long it runs. *)
Theorem negative_thresh_never_returns (fuel : nat) (fcn : vec2 -> vec2)
    (jacobian : vec2 -> mat2) (guess : vec2) (thresh : R) (theta : vec2) :
  thresh < 0 ->
  NewtonRaphson fuel fcn jacobian guess thresh <> Returned theta.
Proof.
  intros H. revert guess.
  induction fuel as [|fuel IH]; intros guess; cbn [NewtonRaphson]; [discriminate|].
  rewrite below_negative by exact H.
  destruct (update fcn jacobian guess); [apply IH | discriminate].
Qed.

Lemma negative_thresh_never_returns_witness :
  -1 < 0 /\
  NewtonRaphson 5 (fun t => g (mkVec 0 110) t) dg_dtheta Kinematics.guess (-1)
    <> Returned Kinematics.guess.
Proof.
  assert (H : -1 < 0) by lra.
  split; [exact H|].
  exact (negative_thresh_never_returns 5 _ _ _ (-1) _ H).
Defined.

Lemma line_of_line_for w theta : line_for w (line_of w theta).
Proof.
  unfold line_for, line_of, x_des, xSCALE, xOFFSET, ySCALE, yOFFSET.
  cbn [loc xS yS v0 v1]. repeat split; ring.
Qed.

(** What one run of the solve loop adds to Send.txt. *)
Lemma solve_loop_lines fuel lines : forall theta_guess send,
  exists new,
    sent (solve_loop fuel lines theta_guess send) = (send ++ new)%list /\
    Forall2 line_for (firstn (length new) lines) new /\
    match solve_loop fuel lines theta_guess send with
    | Solved _ => length new = length lines
    | SolveRaised _ | SolveStillRunning _ => (length new < length lines)%nat
    end.
Proof.
  induction lines as [|w rest IH]; intros theta_guess send; cbn [solve_loop].
  - exists []. cbn. rewrite app_nil_r. repeat split. constructor.
  - destruct (NewtonRaphson _ _ _ _ _) as [theta| |].
    + destruct (IH (mkVec (th1 (line_of w theta)) (th2 (line_of w theta)))
                   (send ++ [line_of w theta])%list)
        as (new & E & F & L).
      exists (line_of w theta :: new). rewrite E, <- app_assoc.
      split; [reflexivity|]. split.
      * cbn. constructor; [apply line_of_line_for | exact F].
      * destruct (solve_loop _ _ _ _); cbn; lia.
    + exists []. cbn. rewrite app_nil_r. repeat split; [constructor | lia].
    + exists []. cbn. rewrite app_nil_r. repeat split; [constructor | lia].
Qed.

(** X10.  The lines of Send.txt stand, one for one and in order, for the
    first lines of Interpolated.txt: the same pen command, and the
    coordinates scaled by 1/40 and shifted by (-70, -500).  They stand for
    all of them when the loop runs to its end, and for fewer when it is left
    early. *)
Theorem send_lines_follow_interpolated (fuel : nat)
    (lines : list Resampler.Waypoint) :
  Forall2 line_for (firstn (length (sent (solve fuel lines))) lines)
          (sent (solve fuel lines)) /\
  match solve fuel lines with
  | Solved send => length send = length lines
  | SolveRaised send | SolveStillRunning send => (length send < length lines)%nat
  end.
Proof.
  unfold solve.
  destruct (solve_loop_lines fuel lines Kinematics.guess []) as (new & E & F & L).
  cbn [app] in E. rewrite E. split; [exact F|].
  destruct (solve_loop fuel lines Kinematics.guess []); cbn [sent] in E; now subst.
Qed.

Lemma fmod_turns x y : fmod x y + y * IZR (Int_part (x / y)) = x.
Proof. unfold fmod. ring. Qed.

Lemma line_of_reaches w theta :
  below (g (x_des w) theta) (1 / 1000) = true ->
  reaches (line_of w theta) (Int_part (v0 theta / (2 * PI))).
Proof.
  intros B. apply below_spec in B.
  unfold reaches, line_of. cbn [xS yS th1 th2].
  rewrite fmod_turns. exact B.
Qed.

Lemma NewtonRaphson_below fuel fcn jacobian thresh : forall guess theta,
  NewtonRaphson fuel fcn jacobian guess thresh = Returned theta ->
  below (fcn theta) thresh = true.
Proof.
  intros guess theta H. apply NewtonRaphson_returns in H.
  destruct H as (k & _ & _ & B & _). exact B.
Qed.

(** X11.  Every line of Send.txt reproduces its point up to whole
    revolutions of motor 1: for some integer [k], the motor angles
    [(th1 + 2 PI k, th2)] put the pen within [1e-3] of [(xS, yS)], in x and
    in y.  ([k] is the number of revolutions that [% (2*math.pi)] took off
    the angle [NewtonRaphson] returned.) *)
Theorem send_lines_reach_their_points (fuel : nat)
    (lines : list Resampler.Waypoint) :
  Forall (fun c => exists k, reaches c k) (sent (solve fuel lines)).
Proof.
  unfold solve. generalize Kinematics.guess at 1.
  assert (Hs : Forall (fun c => exists k, reaches c k) (@nil MotionCommand))
    by constructor.
  revert Hs. generalize (@nil MotionCommand).
  induction lines as [|w rest IH]; intros send Hs theta_guess;
    cbn [solve_loop].
  - exact Hs.
  - destruct (NewtonRaphson _ _ _ _ _) as [theta| |] eqn:E; try exact Hs.
    apply IH. apply Forall_app. split; [exact Hs|].
    constructor; [|constructor].
    eexists. apply line_of_reaches.
    exact (NewtonRaphson_below _ _ _ _ _ _ E).
Qed.

End SolverProofs.

(* ================================================================== *)
(** ** The coordination task: invariants of a run *)
(* ================================================================== *)

Module TaskProofs.
Import Stdlib.Strings.String.
Import Resampler Kinematics Coordination CoordinationSpec TaskSpec.
Local Open Scope string_scope.
Local Open Scope list_scope.
Local Open Scope Z_scope.

Lemma reads_app t1 t2 : reads (t1 ++ t2) = (reads t1 + reads t2)%nat.
Proof. unfold reads. now rewrite filter_app, length_app. Qed.

Lemma skipn_cons_nth {A} (l : list A) n a rest :
  skipn n l = a :: rest -> skipn (S n) l = rest.
Proof.
  revert l. induction n as [|n IH]; intros [|b l] H; cbn in *; try discriminate.
  - now injection H as _ ->.
  - now apply IH.
Qed.

Lemma skipn_nonempty {A} (l : list A) n :
  (n < List.length l)%nat -> skipn n l <> [].
Proof.
  intros H E. pose proof (length_skipn n l) as L. rewrite E in L. cbn in L. lia.
Qed.

(** The outcomes of the two calls and the test that follow a dispatch. *)
Lemma targets_then_advance_cases arr c l :
  targets_then_advance arr c l =
    (if both arr
     then mkLocals (state l) (step l + 1) (pen_is_up l) true (send l) (data l)
            (printed l)
     else l,
     poll c arr).
Proof.
  unfold targets_then_advance, poll, targets, both.
  destruct arr as [[|] [|]]; reflexivity.
Qed.

Lemma reads_poll c arr : reads (poll c arr) = 0%nat.
Proof. destruct arr as [[|] [|]]; reflexivity. Qed.

Ltac pass_done :=
  unfold between_passes, lines_read, passes_left in *;
  cbn [state step pen_is_up update send data printed
       Z.eqb S0_INIT S1_PLOT S2_DONE Pos.eqb] in *.

(** One pass from a state the generator can be in. *)
Lemma pass_between_passes elements stream arr l :
  elements - 1 <= Z.of_nat (List.length stream) ->
  between_passes elements stream l ->
  exists l' acts,
    task_main elements arr l = Some (l', acts) /\
    between_passes elements stream l' /\
    Z.of_nat (reads acts) = lines_read l' - lines_read l /\
    (1 <= elements -> both arr = true -> state l <> S2_DONE ->
       (passes_left elements l' < passes_left elements l)%nat).
Proof.
  intros Hlen [[Hst Hsend] | (Hst & Hstep & Hsend & Hdone & Hup)].
  - destruct l as [st sp pen up sd dt pr]. cbn in *. subst st sd.
    eexists _, _. split; [reflexivity|]. split; [|split].
    + right. cbn. split; [now left|]. split; [lia|]. split; [reflexivity|].
      split; discriminate.
    + reflexivity.
    + intros. pass_done. lia.
  - destruct l as [st sp pen up sd dt pr]. cbn in *.
    destruct Hst as [-> | ->].
    + (* Plotting *)
      clear Hdone.
      unfold task_main. cbn [state step]. cbn [Z.eqb S0_INIT S1_PLOT Pos.eqb].
      destruct (Z.ltb_spec sp (elements - 1)) as [Hlt|Hge].
      * unfold fetch. cbn [update send state step pen_is_up data printed].
        destruct up.
        -- (* a line is due *)
           unfold lines_read in Hsend. cbn in Hsend. rewrite Z.add_0_r in Hsend.
           destruct sd as [|c rest].
           { exfalso. symmetry in Hsend. revert Hsend. apply skipn_nonempty. lia. }
           symmetry in Hsend. apply skipn_cons_nth in Hsend.
           replace (S (Z.to_nat sp)) with (Z.to_nat (sp + 1)) in Hsend by lia.
           cbn [data]. unfold dispatch. cbn [pen_is_up state step update send data printed].
           destruct (loc c) eqn:K, pen;
             rewrite ?targets_then_advance_cases;
             cbn [state step pen_is_up update send data printed];
             destruct arr as [[|] [|]]; cbn [both fst snd andb];
             (eexists _, _; split; [reflexivity|];
              split; [right; cbn; split; [now left|]; split; [lia|];
                      split; [unfold lines_read; cbn; rewrite ?Z.add_0_r; now symmetry|];
                      split; [discriminate|];
                      first [discriminate
                            | intros _; split; [lia|]; eexists; split; [reflexivity|];
                              now rewrite K]
                     |split; [unfold lines_read; rewrite !reads_app; cbn; lia
                             |intros; pass_done; solve [discriminate | lia]]]).
        -- (* the line read last is dispatched again *)
           destruct (Hup eq_refl) as (_ & c & -> & Hpen). cbn [data].
           unfold dispatch. cbn [pen_is_up state step update send data printed].
           destruct (loc c) eqn:K; subst pen;
             rewrite ?targets_then_advance_cases;
             cbn [state step pen_is_up update send data printed];
             destruct arr as [[|] [|]]; cbn [both fst snd andb];
             (eexists _, _; split; [reflexivity|];
              split; [right; cbn; split; [now left|]; split; [lia|];
                      split; [unfold lines_read in *; cbn in *; rewrite ?Z.add_0_r; exact Hsend|];
                      split; [discriminate|];
                      first [discriminate
                            | intros _; split; [lia|]; eexists; split; [reflexivity|];
                              now rewrite K]
                     |split; [unfold lines_read; rewrite ?reads_app; cbn; lia
                             |intros; pass_done; solve [discriminate | lia]]]).
      * destruct (Z.eqb_spec sp (elements - 1)) as [He|Hne].
        -- assert (U : up = true).
           { destruct up; [reflexivity|]. destruct (Hup eq_refl). lia. }
           subst up.
           eexists _, _. split; [reflexivity|]. split; [|split].
           ++ right. cbn. split; [now right|]. split; [lia|].
              split; [pass_done; exact Hsend|]. split; [intros _; exact He|].
              discriminate.
           ++ pass_done. cbn. lia.
           ++ intros. pass_done. lia.
        -- eexists _, _. split; [reflexivity|]. split; [|split].
           ++ right. cbn. split; [now left|]. split; [lia|].
              split; [pass_done; exact Hsend|]. split; [discriminate|]. exact Hup.
           ++ pass_done. cbn. lia.
           ++ intros. pass_done. lia.
    + (* Done *)
      unfold task_main. cbn [state step printed].
      cbn [Z.eqb S0_INIT S1_PLOT S2_DONE Pos.eqb].
      destruct pr; eexists _, _; (split; [reflexivity|]);
        (split; [right; cbn; split; [now right|]; split; [lia|];
                 split; [pass_done; exact Hsend|]; split; [exact Hdone | exact Hup]
                |split; [pass_done; cbn; lia | intros ? ? H; now elim H]]).
Qed.

(** Any number of passes. *)
Lemma run_between_passes elements stream arrs : forall l,
  elements - 1 <= Z.of_nat (List.length stream) ->
  between_passes elements stream l ->
  exists l' trace,
    run elements arrs l = Some (l', trace) /\
    between_passes elements stream l' /\
    Z.of_nat (reads trace) = lines_read l' - lines_read l.
Proof.
  induction arrs as [|arr arrs IH]; intros l Hlen Hl; cbn [run].
  - exists l, []. split; [reflexivity|]. split; [exact Hl|]. cbn. lia.
  - destruct (pass_between_passes elements stream arr l Hlen Hl)
      as (l1 & acts & -> & H1 & R1 & _).
    destruct (IH l1 Hlen H1) as (l2 & trace & -> & H2 & R2).
    exists l2, (acts ++ trace). split; [reflexivity|]. split; [exact H2|].
    rewrite reads_app. lia.
Qed.

Lemma between_passes_read elements stream l :
  between_passes elements stream l ->
  0 <= lines_read l <= Z.max 0 (elements - 1) /\
  send l = skipn (Z.to_nat (lines_read l)) stream.
Proof.
  intros [[Hst Hsend] | (Hst & Hstep & Hsend & Hdone & Hup)].
  - unfold lines_read. rewrite Hst. cbn. split; [lia | exact Hsend].
  - split; [|exact Hsend]. unfold lines_read.
    destruct Hst as [-> | ->]; cbn;
      (destruct (update l); [lia | destruct (Hup eq_refl); lia]).
Qed.

(** A pass in Done prints "Completed" if that is still due, and nothing
    else happens. *)
Lemma done_pass elements arr l :
  state l = S2_DONE ->
  task_main elements arr l =
    Some (if printed l then l
          else mkLocals (state l) (step l) (pen_is_up l) (update l) (send l)
                 (data l) true,
          if printed l then [] else [PrintLine "Completed"]).
Proof.
  intros H. unfold task_main. rewrite H.
  cbn [Z.eqb S0_INIT S1_PLOT S2_DONE Pos.eqb]. now destruct (printed l).
Qed.

Lemma passes_left_zero elements stream l :
  1 <= elements -> between_passes elements stream l ->
  passes_left elements l = 0%nat -> state l = S2_DONE.
Proof.
  intros He [[Hst _] | ([Hst|Hst] & Hstep & _ & _ & Hup)] H;
    [| |exact Hst]; unfold passes_left in H; rewrite Hst in H; cbn in H; [lia|].
  destruct (update l); [lia|]. destruct (Hup eq_refl). lia.
Qed.

(** With both motors arriving in every pass, enough passes end in Done. *)
Lemma run_to_done elements stream n : forall l,
  1 <= elements -> elements - 1 <= Z.of_nat (List.length stream) ->
  between_passes elements stream l ->
  (passes_left elements l <= n)%nat ->
  exists l' trace,
    run elements (repeat (true, true) n) l = Some (l', trace) /\
    between_passes elements stream l' /\ state l' = S2_DONE /\
    Z.of_nat (reads trace) = lines_read l' - lines_read l.
Proof.
  induction n as [|n IH]; intros l He Hlen Hl Hn; cbn [repeat run].
  - exists l, []. split; [reflexivity|]. split; [exact Hl|]. split; [|cbn; lia].
    apply (passes_left_zero elements stream l He Hl). lia.
  - destruct (pass_between_passes elements stream (true, true) l Hlen Hl)
      as (l1 & acts & E1 & H1 & R1 & P1).
    destruct (IH l1 He Hlen H1) as (l2 & trace & E2 & H2 & D2 & R2).
    + destruct (Z.eq_dec (state l) S2_DONE) as [D|D].
      * rewrite (done_pass elements (true, true) l D) in E1.
        injection E1 as <- _. unfold passes_left.
        destruct (printed l); cbn [state]; rewrite D; cbn; lia.
      * specialize (P1 He eq_refl D). lia.
    + rewrite E1, E2.
      exists l2, (acts ++ trace). split; [reflexivity|]. split; [exact H2|].
      split; [exact D2|]. rewrite reads_app. lia.
Qed.

Lemma between_passes_start elements stream :
  between_passes elements stream (not_started stream).
Proof. left. split; reflexivity. Qed.

(** With nothing to draw, a pass of the plotting state does nothing. *)
Lemma run_idle elements arrs l :
  state l = S1_PLOT -> elements - 1 < step l ->
  run elements arrs l = Some (l, []).
Proof.
  intros Hst Hstep. induction arrs as [|arr arrs IH]; [reflexivity|].
  cbn [run]. unfold task_main. rewrite Hst.
  cbn [Z.eqb S0_INIT S1_PLOT Pos.eqb].
  destruct (Z.ltb_spec (step l) (elements - 1)); [lia|].
  destruct (Z.eqb_spec (step l) (elements - 1)); [lia|].
  now rewrite IH.
Qed.

(** From Done, any number of passes. *)
Lemma run_done elements arrs : forall l,
  state l = S2_DONE ->
  run elements arrs l =
    Some (match arrs with
          | [] => l
          | _ => if printed l then l
                 else mkLocals (state l) (step l) (pen_is_up l) (update l)
                        (send l) (data l) true
          end,
          match arrs with
          | [] => []
          | _ => if printed l then [] else [PrintLine "Completed"]
          end).
Proof.
  induction arrs as [|arr arrs IH]; intros l D; cbn [run]; [reflexivity|].
  rewrite (done_pass elements arr l D).
  destruct (printed l) eqn:P.
  - rewrite (IH l D), P. now destruct arrs.
  - rewrite IH by exact D. cbn [printed state step pen_is_up update send data].
    now destruct arrs.
Qed.

(** The step index after one pass, whatever the state. *)
Lemma pass_step elements arr l l' acts :
  task_main elements arr l = Some (l', acts) ->
  state l' <> S0_INIT /\
  (state l = S0_INIT -> step l' = 0) /\
  (state l <> S0_INIT ->
     step l <= step l' <= step l + (if both arr then 1 else 0)).
Proof.
  destruct l as [st sp pen up sd dt pr].
  unfold task_main, fetch, dispatch, targets_then_advance, both.
  cbn [state step pen_is_up update send data printed].
  destruct (Z.eqb_spec st S0_INIT) as [->|N0].
  - intros H. injection H as <- _. cbn.
    split; [discriminate|]. split; [reflexivity | intros H; now elim H].
  - destruct (Z.eqb_spec st S1_PLOT) as [->|N1].
    + destruct (sp <? elements - 1).
      * destruct up.
        -- destruct sd as [|c rest]; [discriminate|].
           cbn [state step pen_is_up update send data printed].
           destruct (loc c), pen, arr as [[|] [|]]; cbn;
             intros H; injection H as <- _; cbn;
             (split; [discriminate|]; split; [intros; discriminate | intros _; lia]).
        -- destruct dt as [c|]; [|discriminate].
           cbn [state step pen_is_up update send data printed].
           destruct (loc c), pen, arr as [[|] [|]]; cbn;
             intros H; injection H as <- _; cbn;
             (split; [discriminate|]; split; [intros; discriminate | intros _; lia]).
      * destruct (sp =? elements - 1); intros H; injection H as <- _; cbn;
          (split; [discriminate|]; split;
           [intros; discriminate | intros _; destruct (fst arr && snd arr); lia]).
    + destruct (Z.eqb_spec st S2_DONE) as [->|N2]; [|discriminate].
      destruct pr; intros H; injection H as <- _; cbn;
        (split; [discriminate|]; split;
         [intros; discriminate | intros _; destruct (fst arr && snd arr); lia]).
Qed.

Lemma pass_pen elements arr l l' acts up :
  task_main elements arr l = Some (l', acts) ->
  (pen_is_up l = true -> up = true) ->
  lowered_after_lift up acts /\
  (pen_is_up l' = true -> lifted_after up acts = true).
Proof.
  destruct l as [st sp pen upd sd dt pr].
  unfold task_main, fetch, dispatch, targets_then_advance.
  cbn [state step pen_is_up update send data printed].
  destruct (st =? S0_INIT).
  - intros H _. injection H as <- <-. cbn. split; [exact I | discriminate].
  - destruct (st =? S1_PLOT).
    + destruct (sp <? elements - 1).
      * destruct upd.
        -- destruct sd as [|c rest]; [discriminate|].
           cbn [state step pen_is_up update send data printed].
           destruct (loc c), pen, arr as [[|] [|]]; cbn;
             intros H J; injection H as <- <-; cbn; auto.
        -- destruct dt as [c|]; [|discriminate].
           cbn [state step pen_is_up update send data printed].
           destruct (loc c), pen, arr as [[|] [|]]; cbn;
             intros H J; injection H as <- <-; cbn; auto.
      * destruct (sp =? elements - 1); intros H J; injection H as <- <-; cbn; auto.
    + destruct (st =? S2_DONE); [|discriminate].
      destruct pr; intros H J; injection H as <- <-; cbn; auto.
Qed.

Lemma lowered_after_lift_app t1 : forall up t2,
  lowered_after_lift up t1 ->
  lowered_after_lift (lifted_after up t1) t2 ->
  lowered_after_lift up (t1 ++ t2).
Proof.
  induction t1 as [|a t1 IH]; intros up t2 H1 H2; [exact H2|].
  destruct a; cbn in *; try (apply IH; assumption).
  destruct H1 as [U H1]. split; [exact U | now apply IH].
Qed.

Lemma lifted_after_app t1 : forall up t2,
  lifted_after up (t1 ++ t2) = lifted_after (lifted_after up t1) t2.
Proof.
  induction t1 as [|a t1 IH]; intros up t2; [reflexivity|].
  destruct a; cbn; apply IH.
Qed.

Lemma run_pen elements arrs : forall l l' trace up,
  run elements arrs l = Some (l', trace) ->
  (pen_is_up l = true -> up = true) ->
  lowered_after_lift up trace /\
  (pen_is_up l' = true -> lifted_after up trace = true).
Proof.
  induction arrs as [|arr arrs IH]; intros l l' trace up H J; cbn [run] in H.
  - injection H as <- <-. split; [exact I | exact J].
  - destruct (task_main elements arr l) as [[l1 acts]|] eqn:T; [|discriminate].
    destruct (run elements arrs l1) as [[l2 rest]|] eqn:R; [|discriminate].
    injection H as <- <-.
    destruct (pass_pen _ _ _ _ _ up T J) as [A1 B1].
    destruct (IH _ _ _ (lifted_after up acts) R B1) as [A2 B2].
    split; [now apply lowered_after_lift_app|].
    rewrite lifted_after_app. exact B2.
Qed.

Lemma arrivals_cons arr arrs :
  Z.of_nat (arrivals (arr :: arrs)) =
  (if both arr then 1 else 0) + Z.of_nat (arrivals arrs).
Proof. unfold arrivals. cbn [filter]. destruct (both arr); cbn [List.length]; lia. Qed.

Lemma run_step elements arrs : forall l l' trace,
  state l <> S0_INIT ->
  run elements arrs l = Some (l', trace) ->
  step l <= step l' <= step l + Z.of_nat (arrivals arrs).
Proof.
  induction arrs as [|arr arrs IH]; intros l l' trace N H; cbn [run] in H.
  - injection H as <- <-. cbn. lia.
  - destruct (task_main elements arr l) as [[l1 acts]|] eqn:T; [|discriminate].
    destruct (run elements arrs l1) as [[l2 rest]|] eqn:R; [|discriminate].
    injection H as <- <-.
    destruct (pass_step _ _ _ _ _ T) as (N1 & _ & S1). specialize (S1 N).
    specialize (IH _ _ _ N1 R). rewrite arrivals_cons. lia.
Qed.

(** X12.  For a Send.txt that holds at least [elements - 1] lines, no run of
    passes from the start of the generator raises, and the lines read are
    the first [reads trace] of the file, at most [elements - 1] of them: of
    the [elements] lines that [startup] writes, the last is never read. *)
Theorem last_line_unread (elements : Z) (stream : list MotionCommand)
    (arrs : list (bool * bool)) :
  elements - 1 <= Z.of_nat (List.length stream) ->
  exists l' trace,
    run elements arrs (not_started stream) = Some (l', trace) /\
    Z.of_nat (reads trace) <= Z.max 0 (elements - 1) /\
    send l' = skipn (reads trace) stream /\
    (0 < elements <= Z.of_nat (List.length stream) -> send l' <> []).
Proof.
  intros Hlen.
  destruct (run_between_passes elements stream arrs (not_started stream) Hlen
              (between_passes_start elements stream))
    as (l' & trace & E & H & R).
  destruct (between_passes_read elements stream l' H) as [B S].
  change (lines_read (not_started stream)) with 0 in R.
  exists l', trace. split; [exact E|].
  assert (Q : reads trace = Z.to_nat (lines_read l')) by lia.
  split; [lia|]. split; [now rewrite Q|].
  intros He. rewrite S. apply skipn_nonempty. lia.
Qed.

Lemma last_line_unread_witness :
  3 - 1 <= Z.of_nat (List.length three_lines) /\
  exists l' trace,
    run 3 [(true, true); (true, false); (true, true); (true, true);
           (true, true); (true, true); (true, true)]
        (not_started three_lines) = Some (l', trace) /\
    Z.of_nat (reads trace) <= Z.max 0 (3 - 1) /\
    send l' = skipn (reads trace) three_lines /\
    (0 < 3 <= Z.of_nat (List.length three_lines) -> send l' <> []).
Proof.
  assert (H : 3 - 1 <= Z.of_nat (List.length three_lines)) by (cbn; lia).
  split; [exact H|].
  exact (last_line_unread 3 three_lines _ H).
Defined.

(** X13.  When both motors answer that they have arrived in every pass, the
    generator is in Done after [2 * elements] passes at the latest, for
    [elements >= 1] and a Send.txt of at least [elements - 1] lines, and it
    has read exactly [elements - 1] lines by then. *)
Theorem plotting_reaches_done (elements : Z) (stream : list MotionCommand)
    (n : nat) :
  1 <= elements -> elements - 1 <= Z.of_nat (List.length stream) ->
  (2 * Z.to_nat elements <= n)%nat ->
  exists l' trace,
    run elements (repeat (true, true) n) (not_started stream) = Some (l', trace) /\
    state l' = S2_DONE /\ Z.of_nat (reads trace) = elements - 1.
Proof.
  intros He Hlen Hn.
  destruct (run_to_done elements stream n (not_started stream) He Hlen
              (between_passes_start elements stream) Hn)
    as (l' & trace & E & H & D & R).
  exists l', trace. split; [exact E|]. split; [exact D|].
  change (lines_read (not_started stream)) with 0 in R. rewrite R, Z.sub_0_r.
  destruct H as [[Hst _] | (_ & _ & _ & Hd & Hup)]; [rewrite D in Hst; discriminate|].
  unfold lines_read. rewrite D. cbn. specialize (Hd D).
  destruct (update l'); [lia|]. destruct (Hup eq_refl). lia.
Qed.

Lemma plotting_reaches_done_witness :
  (1 <= 3 /\ 3 - 1 <= Z.of_nat (List.length three_lines) /\
   (2 * Z.to_nat 3 <= 6)%nat) /\
  exists l' trace,
    run 3 (repeat (true, true) 6) (not_started three_lines) = Some (l', trace) /\
    state l' = S2_DONE /\ Z.of_nat (reads trace) = 3 - 1.
Proof.
  assert (H : 1 <= 3 /\ 3 - 1 <= Z.of_nat (List.length three_lines) /\
              (2 * Z.to_nat 3 <= 6)%nat) by (cbn; lia).
  split; [exact H|].
  exact (plotting_reaches_done 3 three_lines 6 (proj1 H) (proj1 (proj2 H))
           (proj2 (proj2 H))).
Defined.

(** X14.  With [elements <= 0] (a drawing without a point) the generator
    opens the file and then stays in the plotting state for ever: no pass
    does anything, and Done is never reached. *)
Theorem empty_drawing_never_done (elements : Z) (stream : list MotionCommand)
    (arr : bool * bool) (arrs : list (bool * bool)) :
  elements <= 0 ->
  run elements (arr :: arrs) (not_started stream) =
    Some (mkLocals S1_PLOT 0 false true stream None false, [OpenSend]).
Proof.
  intros He. cbn [run].
  change (task_main elements arr (not_started stream))
    with (Some (mkLocals S1_PLOT 0 false true stream None false, [OpenSend])).
  cbv beta iota.
  rewrite run_idle; [reflexivity | reflexivity | cbn; lia].
Qed.

Lemma empty_drawing_never_done_witness :
  0 <= 0 /\
  run 0 [(true, true); (true, true); (false, true)] (not_started []) =
    Some (mkLocals S1_PLOT 0 false true [] None false, [OpenSend]).
Proof.
  assert (H : 0 <= 0) by lia.
  split; [exact H|].
  exact (empty_drawing_never_done 0 [] (true, true) [(true, true); (false, true)] H).
Defined.

(** X15.  Done is final: from Done the generator stays in Done whatever the
    motors answer, and all it ever does is print "Completed" once, in the
    first pass, if that has not been printed. *)
Theorem done_is_final (elements : Z) (arrs : list (bool * bool)) (l : locals) :
  state l = S2_DONE ->
  exists l',
    run elements arrs l =
      Some (l', match arrs with
                | [] => []
                | _ => if printed l then [] else [PrintLine "Completed"]
                end) /\
    state l' = S2_DONE.
Proof.
  intros D. rewrite (run_done elements arrs l D).
  eexists. split; [reflexivity|].
  destruct arrs; [exact D|]. now destruct (printed l).
Qed.

Lemma done_is_final_witness :
  state (mkLocals S2_DONE 2 false true [] None false) = S2_DONE /\
  exists l',
    run 3 [(true, true); (false, false)]
        (mkLocals S2_DONE 2 false true [] None false) =
      Some (l', [PrintLine "Completed"]) /\
    state l' = S2_DONE.
Proof.
  split; [reflexivity|].
  exact (done_is_final 3 [(true, true); (false, false)]
           (mkLocals S2_DONE 2 false true [] None false) eq_refl).
Defined.

(** X16.  In every run from the start of the generator, [pen.pen_down()] is
    called only when the pen call before it was [pen.pen_up()]: never as the
    first pen call, and never twice in a row. *)
Theorem pen_lowered_only_after_lift (elements : Z) (stream : list MotionCommand)
    (arrs : list (bool * bool)) (l' : locals) (trace : list action) :
  run elements arrs (not_started stream) = Some (l', trace) ->
  lowered_after_lift false trace.
Proof.
  intros H.
  destruct (run_pen elements arrs (not_started stream) l' trace false H) as [A _];
    [discriminate | exact A].
Qed.

Lemma pen_lowered_only_after_lift_witness :
  lowered_after_lift false
    [OpenSend;
     PrintLine "Send coordinate updated"; ReadLine; UartWrite 0 0 (1 / 3);
     PenUp; SetTargetPos motor1 1; SetTargetPos motor2 2;
     Arrived motor1 true; Arrived motor2 true;
     PrintLine "Send coordinate updated"; ReadLine; UartWrite 1 1 1;
     PenDown; SetTargetPos motor1 3; SetTargetPos motor2 4].
Proof.
  exact (pen_lowered_only_after_lift 3 three_lines
           [(true, true); (true, true); (true, true)] _ _ eq_refl).
Defined.

(** X17.  The step index moves on only in a pass in which both motors
    answered that they had arrived: after any run from the start of the
    generator it is at most the number of such passes after the first one
    (which only opens the file). *)
Theorem advance_needs_arrival (elements : Z) (stream : list MotionCommand)
    (arrs : list (bool * bool)) (l' : locals) (trace : list action) :
  run elements arrs (not_started stream) = Some (l', trace) ->
  0 <= step l' <= Z.of_nat (arrivals (tl arrs)).
Proof.
  destruct arrs as [|arr arrs]; cbn [run tl].
  - intros H. injection H as <- _. cbn. lia.
  - change (task_main elements arr (not_started stream))
      with (Some (mkLocals S1_PLOT 0 false true stream None false, [OpenSend])).
    cbv beta iota.
    destruct (run elements arrs _) as [[l2 rest]|] eqn:R; [|discriminate].
    intros H. injection H as <- _.
    apply run_step in R; [exact R | discriminate].
Qed.

Lemma advance_needs_arrival_witness :
  0 <= 1 <= Z.of_nat (arrivals (tl [(true, true); (true, false); (true, true)])).
Proof.
  exact (advance_needs_arrival 3 three_lines
           [(true, true); (true, false); (true, true)] 
           (mkLocals S1_PLOT 1 true true (tl three_lines) (hd_error three_lines) false)
           _ eq_refl).
Defined.

End TaskProofs.

(* ================================================================== *)
(** ** [startup] and [task_main] together *)
(* ================================================================== *)

Module StartupProofs.

Import Stdlib.Strings.String.
Import Resampler Kinematics Parser ParserSpec Coordination CoordinationSpec.
Import TaskSpec TaskProofs SolverSpec SolverProofs Startup.
Local Open Scope string_scope.
Local Open Scope list_scope.

Lemma startup_returns int fuel command_list elements interp send :
  startup int fuel command_list = Returns elements interp send ->
  exists STEPS,
    parse int command_list = inr STEPS /\
    interpolate STEPS = Finished interp /\
    solve fuel interp = Solved send /\
    elements = List.length interp.
Proof.
  unfold startup.
  destruct (parse int command_list) as [e|STEPS]; [discriminate|].
  destruct (interpolate STEPS) as [out|e out] eqn:I; [|discriminate].
  destruct (solve fuel out) as [s|s|s] eqn:S; try discriminate.
  intros H. injection H as <- <- <-. exists STEPS.
  split; [reflexivity|]. split; [exact I|]. split; [exact S | reflexivity].
Qed.

(** X18.  When [startup] returns, the number it returns is the number of
    lines of Interpolated.txt and of Send.txt.  With that number in the
    share [elements], no run of passes of [task_main] on that Send.txt
    raises: it never reads past the end of the file, and the lines it reads
    are the first [reads trace], at most [elements - 1]. *)
Theorem startup_then_task_main (int : string -> option Z) (fuel : nat)
    (command_list : string) (elements : nat) (interp : list Waypoint)
    (send : list MotionCommand) (arrs : list (bool * bool)) :
  startup int fuel command_list = Returns elements interp send ->
  List.length interp = elements /\ List.length send = elements /\
  exists l' trace,
    run (Z.of_nat elements) arrs (not_started send) = Some (l', trace) /\
    (reads trace <= elements - 1)%nat /\
    Coordination.send l' = skipn (reads trace) send.
Proof.
  intros H. apply startup_returns in H.
  destruct H as (STEPS & _ & _ & S & ->).
  destruct (solve_loop_lines fuel interp Kinematics.guess []) as (new & E & _ & L).
  unfold solve in S. rewrite S in E, L. cbn [sent app] in E. subst new.
  split; [reflexivity|]. split; [exact L|].
  assert (Hlen : (Z.of_nat (List.length interp) - 1 <= Z.of_nat (List.length send))%Z) by lia.
  destruct (run_between_passes (Z.of_nat (List.length interp)) send arrs
              (not_started send) Hlen (between_passes_start _ send))
    as (l' & trace & R & B & Q).
  destruct (between_passes_read _ send l' B) as [Bd Sd].
  change (lines_read (not_started send)) with 0%Z in Q.
  exists l', trace. split; [exact R|].
  assert (Q' : reads trace = Z.to_nat (lines_read l')) by lia.
  split; [lia | now rewrite Q'].
Qed.

Lemma startup_then_task_main_witness :
  startup int_decimal 1 "PU2800,24400;" =
    Returns 1 [KinematicsSpec.home_line]
      [line_of KinematicsSpec.home_line Kinematics.guess] /\
  exists l' trace,
    run 1 [(true, true); (true, true); (true, true)]
        (not_started [line_of KinematicsSpec.home_line Kinematics.guess]) =
      Some (l', trace) /\
    (reads trace <= 1 - 1)%nat /\
    Coordination.send l' =
      skipn (reads trace) [line_of KinematicsSpec.home_line Kinematics.guess].
Proof.
  assert (H : startup int_decimal 1 "PU2800,24400;" =
              Returns 1 [KinematicsSpec.home_line]
                [line_of KinematicsSpec.home_line Kinematics.guess]).
  { assert (P : parse int_decimal "PU2800,24400;" = inr [mkRaw PU 2800 24400])
      by reflexivity.
    assert (I : interpolate [mkRaw PU 2800 24400] =
                Finished [KinematicsSpec.home_line]) by reflexivity.
    unfold startup. rewrite P, I.
    destruct KinematicsProofs.solve_home as [-> _]. reflexivity. }
  split; [exact H|].
  exact (proj2 (proj2 (startup_then_task_main int_decimal 1 "PU2800,24400;" 1 _ _
                         [(true, true); (true, true); (true, true)] H))).
Defined.

End StartupProofs.

(* ================================================================== *)
(** ** The driver: registers, positions, the constructor, datagrams *)
(* ================================================================== *)

Module DriverSetupProofs.

Import Stdlib.Strings.String.
Import Driver DriverSpec DriverProofs DriverAngles DriverSetup DriverSetupSpec.
Local Open Scope string_scope.
Local Open Scope list_scope.
Local Open Scope Z_scope.

Lemma testbit_7 n : 0 <= n -> Z.testbit 7 n = (n <? 3).
Proof.
  intros H. change 7 with (Z.ones 3). rewrite Z.testbit_ones by lia.
  destruct (Z.leb_spec 0 n); [reflexivity | lia].
Qed.

(** The two bytes of an 11-bit value, put together again. *)
Lemma payload_11_bits b0 v :
  payload [b0; 0; Z.land (Z.shiftr v 8) 7; Z.land v 255] = v mod 2 ^ 11.
Proof.
  unfold payload, getitem. cbn [nth].
  apply Z.bits_inj'. intros n Hn.
  rewrite Z.testbit_mod_pow2 by lia.
  rewrite !Z.lor_spec, !Z.land_spec.
  rewrite !Z.shiftl_spec by lia.
  rewrite Z.testbit_0_l. cbn [orb].
  destruct (Z.ltb_spec n 8).
  - rewrite (Z.testbit_neg_r _ (n - 8)) by lia.
    rewrite testbit_255 by lia.
    destruct (Z.ltb_spec n 8); [|lia]. destruct (Z.ltb_spec n 11); [|lia].
    cbn. now rewrite andb_true_r.
  - rewrite !Z.land_spec, Z.shiftr_spec by lia.
    rewrite testbit_255, testbit_7 by lia.
    replace (n - 8 + 8) with n by lia.
    destruct (Z.ltb_spec n 8); [lia|].
    destruct (Z.ltb_spec (n - 8) 3), (Z.ltb_spec n 11); try lia;
      cbn; now rewrite ?andb_true_r, ?andb_false_r, ?orb_false_r.
Qed.

Lemma divs_byte p r :
  Z.lor (Z.shiftl (Z.land p 15) 4) (Z.land r 15) = (p mod 16) * 16 + r mod 16.
Proof.
  change 15 with (Z.ones 4). rewrite !Z.land_ones by lia.
  change (2 ^ 4) with 16.
  pose proof (Z.mod_pos_bound p 16 ltac:(lia)) as Hp.
  pose proof (Z.mod_pos_bound r 16 ltac:(lia)) as Hr.
  generalize dependent (p mod 16). generalize dependent (r mod 16).
  intros b Hb a Ha.
  assert (A : forallb (fun a => forallb (fun b =>
                 Z.lor (Z.shiftl a 4) b =? a * 16 + b) (interval 0 16))
                (interval 0 16) = true) by (vm_compute; reflexivity).
  rewrite forallb_forall in A.
  specialize (A a (in_interval 0 16 a ltac:(lia))).
  rewrite forallb_forall in A.
  apply Z.eqb_eq, A, in_interval. lia.
Qed.

Lemma payload_divs b0 d : 0 <= d < 256 -> payload [b0; 0; d; 0] = d * 256.
Proof.
  intros H. unfold payload, getitem. cbn [nth].
  rewrite Z.shiftl_0_l, Z.lor_0_l, Z.lor_0_r, Z.shiftl_mul_pow2 by lia.
  reflexivity.
Qed.

(** The register file after a write datagram. *)
Lemma regs_send_write b0 b1 b2 b3 s a :
  well_formed s -> Z.testbit b0 0 = false ->
  regs (send_datagram b0 b1 b2 b3 s) a =
  if a =? Z.shiftr b0 1 then payload [b0; b1; b2; b3] else regs s a.
Proof. intros Hs Hw. now rewrite send_write. Qed.

Lemma well_formed_send b0 b1 b2 b3 s :
  well_formed s -> well_formed (send_datagram b0 b1 b2 b3 s).
Proof. intros Hs. now destruct (send_datagram_wire b0 b1 b2 b3 s Hs) as (_ & _ & _ & W). Qed.

(** X19.  [set_vmin], [set_vmax] and the second datagram of [set_accel]
    keep the low 11 bits of their argument: the register V_MIN, V_MAX or
    A_MAX holds the argument modulo 2048 afterwards, which is the argument
    itself only in [0, 2047]; no other register of the chip changes in
    [set_vmin] and [set_vmax]. *)
Theorem eleven_bit_registers (v : Z) (s : state) :
  well_formed s ->
  (forall a, regs (set_vmin v s) a = if a =? V_MIN then v mod 2048 else regs s a) /\
  (forall a, regs (set_vmax v s) a = if a =? V_MAX then v mod 2048 else regs s a) /\
  (v <> 0 -> exists s', set_accel v s = inr s' /\ regs s' A_MAX = v mod 2048).
Proof.
  intros Hs. split; [|split].
  - intros a. unfold set_vmin. rewrite regs_send_write by (exact Hs || reflexivity).
    now rewrite payload_11_bits.
  - intros a. unfold set_vmax. rewrite regs_send_write by (exact Hs || reflexivity).
    now rewrite payload_11_bits.
  - intros Hv. unfold set_accel.
    destruct (Z.eqb_spec v 0) as [|_]; [contradiction|].
    destruct (pmul_loop_spec v 129 128 0) as (pm & pd & b & E & _); try lia.
    rewrite E. eexists. split; [reflexivity|].
    rewrite regs_send_write; [|now apply well_formed_send | reflexivity].
    change (A_MAX =? Z.shiftr (Z.lor (Z.shiftl A_MAX 1) 0) 1) with true.
    cbv iota. now rewrite payload_11_bits.
Qed.

Lemma eleven_bit_registers_witness :
  well_formed fresh /\
  regs (set_vmax 400 fresh) V_MAX = 400 /\
  regs (set_vmax 5000 fresh) V_MAX = 904.
Proof.
  assert (W : well_formed fresh) by (split; reflexivity).
  split; [exact W|]. split.
  - exact (proj1 (proj2 (eleven_bit_registers 400 fresh W)) V_MAX).
  - exact (proj1 (proj2 (eleven_bit_registers 5000 fresh W)) V_MAX).
Defined.

(** X20.  [set_divs] keeps the low four bits of each argument: the register
    PULSE_RAMP_DIV holds [pulsediv mod 16] in bits 15-12 and
    [rampdiv mod 16] in bits 11-8 afterwards, and no other register
    changes. *)
Theorem set_divs_register (pulsediv rampdiv : Z) (s : state) :
  well_formed s ->
  forall a,
    regs (set_divs pulsediv rampdiv s) a =
    if a =? PULSE_RAMP_DIV
    then ((pulsediv mod 16) * 16 + rampdiv mod 16) * 256
    else regs s a.
Proof.
  intros Hs a. unfold set_divs.
  rewrite regs_send_write by (exact Hs || reflexivity).
  change (Z.shiftr (Z.lor (Z.shiftl PULSE_RAMP_DIV 1) 0) 1) with PULSE_RAMP_DIV.
  destruct (a =? PULSE_RAMP_DIV); [|reflexivity].
  rewrite divs_byte. apply payload_divs.
  pose proof (Z.mod_pos_bound pulsediv 16 ltac:(lia)).
  pose proof (Z.mod_pos_bound rampdiv 16 ltac:(lia)). lia.
Qed.

Lemma set_divs_register_witness :
  well_formed fresh /\
  regs (set_divs 9 9 fresh) PULSE_RAMP_DIV = 39168 /\
  regs (set_divs 25 (-7) fresh) PULSE_RAMP_DIV = 39168.
Proof.
  assert (W : well_formed fresh) by (split; reflexivity).
  split; [exact W|]. split.
  - exact (set_divs_register 9 9 fresh W PULSE_RAMP_DIV).
  - exact (set_divs_register 25 (-7) fresh W PULSE_RAMP_DIV).
Defined.

(** A read of a position register: the value and the state after it. *)
Lemma read_position address s :
  well_formed s -> 0 <= address < 64 ->
  let s' := send_datagram (Z.lor (Z.shiftl address 1) 1) 0 0 0 s in
  payload (RX_buf s') = regs s address mod 2 ^ 24 /\
  regs s' = regs s /\ well_formed s' /\
  wire s' = wire s ++ [[Z.lor (Z.shiftl address 1) 1; 0; 0; 0]] /\
  console s' = console s.
Proof.
  intros Hs Ha s'.
  assert (B : Z.testbit (Z.lor (Z.shiftl address 1) 1) 0 = true).
  { rewrite Z.lor_spec, Z.shiftl_spec, Z.testbit_neg_r by lia. reflexivity. }
  assert (A : Z.shiftr (Z.lor (Z.shiftl address 1) 1) 1 = address).
  { rewrite Z.shiftr_lor, Z.shiftr_shiftl_l by lia. cbn. apply Z.lor_0_r. }
  subst s'. rewrite (send_read _ _ _ _ s Hs B). cbn [RX_buf regs wire console].
  rewrite A, payload_of_bytes.
  repeat split; reflexivity.
Qed.

Lemma get_pos_value s :
  well_formed s ->
  fst (get_pos s) = (IZR (regs s X_ACTUAL mod 2 ^ 24) * ((2 * PI) / (8 * 48)))%R /\
  regs (snd (get_pos s)) = regs s /\ well_formed (snd (get_pos s)) /\
  wire (snd (get_pos s)) = wire s ++ [[3; 0; 0; 0]].
Proof.
  intros Hs. unfold get_pos. cbn [fst snd].
  destruct (read_position X_ACTUAL s Hs ltac:(unfold X_ACTUAL; lia))
    as (P & R & W & Wi & _).
  cbv zeta in P, R, W, Wi. rewrite P.
  split; [reflexivity|]. split; [exact R|]. split; [exact W | exact Wi].
Qed.

Lemma get_target_pos_value s :
  well_formed s ->
  fst (get_target_pos s) = (IZR (regs s X_TARGET mod 2 ^ 24) * ((2 * PI) / (8 * 48)))%R /\
  regs (snd (get_target_pos s)) = regs s /\ well_formed (snd (get_target_pos s)) /\
  wire (snd (get_target_pos s)) = wire s ++ [[1; 0; 0; 0]].
Proof.
  intros Hs. unfold get_target_pos. cbn [fst snd].
  destruct (read_position X_TARGET s Hs ltac:(unfold X_TARGET; lia))
    as (P & R & W & Wi & _).
  cbv zeta in P, R, W, Wi. rewrite P.
  split; [reflexivity|]. split; [exact R|]. split; [exact W | exact Wi].
Qed.

Lemma arrived_value tolerance s :
  well_formed s ->
  fst (arrived tolerance s) =
    (if Rle_dec (Rabs (IZR (regs s X_ACTUAL mod 2 ^ 24) * ((2 * PI) / (8 * 48))
                       - IZR (regs s X_TARGET mod 2 ^ 24) * ((2 * PI) / (8 * 48))))
                tolerance
     then true else false) /\
  regs (snd (arrived tolerance s)) = regs s /\
  wire (snd (arrived tolerance s)) = wire s ++ [[3; 0; 0; 0]; [1; 0; 0; 0]].
Proof.
  intros Hs. unfold arrived.
  destruct (get_pos_value s Hs) as (P & R1 & W1 & Wi1).
  destruct (get_pos s) as [p s1]. cbn [fst snd] in *.
  destruct (get_target_pos_value s1 W1) as (T & R2 & W2 & Wi2).
  destruct (get_target_pos s1) as [t s2]. cbn [fst snd] in *.
  subst p t. rewrite R1. split; [reflexivity|]. split.
  - now rewrite R2, R1.
  - now rewrite Wi2, Wi1, <- app_assoc.
Qed.

Lemma microstep_pos : (0 < microstep)%R.
Proof. unfold microstep. pose proof PI_RGT_0. apply Rdiv_lt_0_compat; lra. Qed.

(** The answer of [arrived], in microsteps. *)
Lemma arrived_tolerance tolerance s :
  well_formed s ->
  (fst (arrived tolerance s) = true <->
   (Rabs (IZR (regs s X_ACTUAL mod 2 ^ 24) - IZR (regs s X_TARGET mod 2 ^ 24))
    * microstep <= tolerance)%R).
Proof.
  intros Hs. pose proof microstep_pos as U.
  destruct (arrived_value tolerance s Hs) as (V & _). rewrite V.
  fold microstep. rewrite <- Rmult_minus_distr_r, Rabs_mult.
  rewrite (Rabs_pos_eq microstep) by lra.
  match goal with |- context [Rle_dec ?a ?b] => destruct (Rle_dec a b) as [L|L] end;
    split; intros H; try reflexivity; try discriminate.
  - exact L.
  - contradiction.
Qed.

Lemma arrived_exactly s :
  well_formed s ->
  (fst (arrived 0 s) = true <->
   regs s X_ACTUAL mod 2 ^ 24 = regs s X_TARGET mod 2 ^ 24).
Proof.
  intros Hs. pose proof microstep_pos as U.
  rewrite (arrived_tolerance 0 s Hs). split.
  - intros H.
    pose proof (Rabs_pos (IZR (regs s X_ACTUAL mod 2 ^ 24)
                          - IZR (regs s X_TARGET mod 2 ^ 24))) as A.
    assert (Z0 : (Rabs (IZR (regs s X_ACTUAL mod 2 ^ 24)
                        - IZR (regs s X_TARGET mod 2 ^ 24)) = 0)%R) by nra.
    destruct (Req_dec (IZR (regs s X_ACTUAL mod 2 ^ 24)
                       - IZR (regs s X_TARGET mod 2 ^ 24)) 0) as [E|E].
    + apply eq_IZR. lra.
    + apply Rabs_no_R0 in E. contradiction.
  - intros ->. rewrite Rminus_diag, Rabs_R0. lra.
Qed.

(** X21.  [arrived(tolerance)] reads X_ACTUAL, then X_TARGET, and answers
    True exactly when the two values, taken as unsigned 24-bit numbers of
    microsteps, differ by at most [tolerance] radians.  It changes no
    register.  With the tolerance 0 of [task_main] the two values must be
    equal. *)
Theorem arrived_iff (tolerance : R) (s : state) :
  well_formed s ->
  (fst (arrived tolerance s) = true <->
   (Rabs (IZR (regs s X_ACTUAL mod 2 ^ 24) - IZR (regs s X_TARGET mod 2 ^ 24))
    * microstep <= tolerance)%R) /\
  (fst (arrived 0 s) = true <->
   regs s X_ACTUAL mod 2 ^ 24 = regs s X_TARGET mod 2 ^ 24) /\
  regs (snd (arrived tolerance s)) = regs s /\
  wire (snd (arrived tolerance s)) = wire s ++ [[3; 0; 0; 0]; [1; 0; 0; 0]].
Proof.
  intros Hs. destruct (arrived_value tolerance s Hs) as (_ & R & W).
  split; [now apply arrived_tolerance|].
  split; [now apply arrived_exactly|]. split; assumption.
Qed.

Lemma arrived_iff_witness :
  well_formed fresh /\ fst (arrived 0 fresh) = true.
Proof.
  assert (W : well_formed fresh) by (split; reflexivity).
  split; [exact W|].
  exact (proj2 (proj1 (proj2 (arrived_iff 0 fresh W))) eq_refl).
Defined.

Lemma well_formed_print line s : well_formed s -> well_formed (print line s).
Proof. intros H. exact H. Qed.

Lemma wire_print line s : wire (print line s) = wire s.
Proof. reflexivity. Qed.

Lemma console_print line s : console (print line s) = console s ++ [line].
Proof. reflexivity. Qed.

Lemma regs_print line s : regs (print line s) = regs s.
Proof. reflexivity. Qed.

(** The state [set_zero] leaves. *)
Lemma set_zero_value offset s :
  set_zero offset s =
  inr (print "Setting to ramp mode."
         (send_datagram 20 0 4 0
            (send_datagram 2
               (Z.land (Z.shiftr (py_int (offset * ((8 * 48) / (2 * PI)))) 16) 255)
               (Z.land (Z.shiftr (py_int (offset * ((8 * 48) / (2 * PI)))) 8) 255)
               (Z.land (py_int (offset * ((8 * 48) / (2 * PI)))) 255)
               (print "Setting to hold mode." (send_datagram 20 0 4 3 s))))).
Proof. reflexivity. Qed.

Lemma inr_inj {A B : Type} (a b : B) : @inr A B a = inr b -> a = b.
Proof. intros H. now injection H. Qed.

Lemma set_zero_state (offset : R) (s : state) :
  well_formed s ->
  exists s',
    set_zero offset s = inr s' /\ well_formed s' /\
    wire s' = wire s ++
      [[20; 0; 4; 3];
       [2; Z.land (Z.shiftr (py_int (offset * ((8 * 48) / (2 * PI)))) 16) 255;
           Z.land (Z.shiftr (py_int (offset * ((8 * 48) / (2 * PI)))) 8) 255;
           Z.land (py_int (offset * ((8 * 48) / (2 * PI)))) 255];
       [20; 0; 4; 0]] /\
    forall a,
      regs s' a =
      if a =? RAMP_MODE then 1024
      else if a =? X_ACTUAL
           then py_int (offset * ((8 * 48) / (2 * PI))) mod 2 ^ 24
           else regs s a.
Proof.
  intros Hs. rewrite set_zero_value.
  generalize (py_int (offset * ((8 * 48) / (2 * PI)))). intros n.
  pose proof (send_datagram_wire 20 0 4 3 s Hs) as (W1 & _ & _ & F1).
  apply (well_formed_print "Setting to hold mode.") in F1.
  pose proof (send_datagram_wire 2 (Z.land (Z.shiftr n 16) 255)
                (Z.land (Z.shiftr n 8) 255) (Z.land n 255) _ F1)
    as (W2 & _ & _ & F2).
  pose proof (send_datagram_wire 20 0 4 0 _ F2) as (W3 & _ & _ & F3).
  eexists. split; [reflexivity|].
  split; [apply well_formed_print; exact F3|]. split.
  - rewrite wire_print, W3, W2, wire_print, W1.
    now rewrite <- !app_assoc.
  - intros a. rewrite regs_print.
    rewrite (regs_send_write 20 0 4 0 _ a F2 eq_refl).
    change (Z.shiftr 20 1) with RAMP_MODE.
    destruct (a =? RAMP_MODE) eqn:A1; [reflexivity|].
    rewrite (regs_send_write 2 _ _ _ _ a F1 eq_refl).
    change (Z.shiftr 2 1) with X_ACTUAL.
    destruct (a =? X_ACTUAL) eqn:A2; [apply payload_of_bytes|].
    rewrite regs_print.
    rewrite (regs_send_write 20 0 4 3 s a Hs eq_refl).
    change (Z.shiftr 20 1) with RAMP_MODE. now rewrite A1.
Qed.






(** X24.  After [set_zero(theta)] and [set_target_pos(theta)] with the same
    angle, [arrived(0)] answers True, for every angle: both registers hold
    the same count, also when it is out of the range that reads back. *)
Theorem zero_then_target_arrived (theta : R) (s : state) :
  well_formed s -> arrived_at_zero theta s = Some true.
Proof.
  intros Hs. unfold arrived_at_zero.
  destruct (set_zero_state theta s Hs) as (s' & -> & Hs' & _ & Hr).
  f_equal.
  assert (Ht : well_formed (set_target_pos theta s'))
    by (unfold set_target_pos; now apply well_formed_send).
  apply (arrived_exactly _ Ht).
  unfold set_target_pos.
  rewrite !regs_send_write by (exact Hs' || reflexivity).
  change (X_TARGET =? Z.shiftr (Z.lor (Z.shiftl X_TARGET 1) 0) 1) with true.
  change (X_ACTUAL =? Z.shiftr (Z.lor (Z.shiftl X_TARGET 1) 0) 1) with false.
  cbv iota. rewrite (Hr X_ACTUAL).
  change (X_ACTUAL =? RAMP_MODE) with false.
  change (X_ACTUAL =? X_ACTUAL) with true. cbv iota.
  now rewrite payload_of_bytes, !Z.mod_mod by lia.
Qed.

Lemma zero_then_target_arrived_witness :
  well_formed fresh /\ arrived_at_zero (- PI) fresh = Some true.
Proof.
  assert (W : well_formed fresh) by (split; reflexivity).
  split; [exact W | exact (zero_then_target_arrived (- PI) fresh W)].
Defined.

Lemma search_of_init : pmul_loop 129 100 128 0 false = Some (191, 5, true).
Proof. vm_compute. reflexivity. Qed.

Lemma set_accel_100_value s :
  set_accel 100 s = inr (send_datagram 12 0 0 100 (send_datagram 18 0 191 5 s)).
Proof. unfold set_accel. rewrite search_of_init. reflexivity. Qed.

Lemma set_mode_ramp_value s :
  set_mode "ramp" s = inr (print "Setting to ramp mode." (send_datagram 20 0 4 0 s)).
Proof. reflexivity. Qed.

(** X25.  [__init__] never raises, whatever the chip holds and for either
    direction.  It sends seven datagrams, in this order: IF_CONF (with the
    direction bit), V_MIN = 20, V_MAX = 400, the dividers (9, 9), PMUL = 191
    and PDIV = 5 (a valid pair for the acceleration 100), A_MAX = 100, ramp
    mode.  It leaves the driver with two 4-byte buffers and does not touch
    the position registers. *)
Theorem init_sequence (reverse : bool) (world : state) :
  exists s,
    __init__ reverse world = inr s /\ well_formed s /\
    wire s = wire world ++
      [[104; 0; 0; if reverse then 48 else 32]; [4; 0; 0; 20]; [6; 0; 1; 144];
       [24; 0; 153; 0]; [18; 0; 191; 5]; [12; 0; 0; 100]; [20; 0; 4; 0]] /\
    console s = console world ++ ["Setting to ramp mode."] /\
    valid_pair 100 191 5 /\
    regs s X_TARGET = regs world X_TARGET /\
    regs s X_ACTUAL = regs world X_ACTUAL.
Proof.
  unfold __init__.
  set (s0 := mkState [0; 0; 0; 0] [0; 0; 0; 0] (regs world) (wire world)
               (console world)).
  assert (F0 : well_formed s0) by (split; reflexivity).
  unfold set_vmin, set_vmax, set_divs.
  change (Z.lor (Z.shiftl IF_CONF 1) 0) with 104.
  change (Z.lor (Z.shiftl V_MIN 1) 0) with 4.
  change (Z.lor (Z.shiftl V_MAX 1) 0) with 6.
  change (Z.lor (Z.shiftl PULSE_RAMP_DIV 1) 0) with 24.
  change (Z.land (Z.shiftr 20 8) 7) with 0. change (Z.land 20 255) with 20.
  change (Z.land (Z.shiftr 400 8) 7) with 1. change (Z.land 400 255) with 144.
  change (Z.lor (Z.shiftl (Z.land 9 15) 4) (Z.land 9 15)) with 153.
  rewrite set_accel_100_value. unfold and_then. rewrite set_mode_ramp_value.
  generalize (if reverse then 48 else 32). intros d.
  pose proof (send_datagram_wire 104 0 0 d s0 F0) as (W1 & _ & C1 & F1).
  pose proof (send_datagram_wire 4 0 0 20 _ F1) as (W2 & _ & C2 & F2).
  pose proof (send_datagram_wire 6 0 1 144 _ F2) as (W3 & _ & C3 & F3).
  pose proof (send_datagram_wire 24 0 153 0 _ F3) as (W4 & _ & C4 & F4).
  pose proof (send_datagram_wire 18 0 191 5 _ F4) as (W5 & _ & C5 & F5).
  pose proof (send_datagram_wire 12 0 0 100 _ F5) as (W6 & _ & C6 & F6).
  pose proof (send_datagram_wire 20 0 4 0 _ F6) as (W7 & _ & C7 & F7).
  eexists. split; [reflexivity|].
  split; [apply well_formed_print; exact F7|].
  split; [|split; [|split; [|split]]].
  - rewrite wire_print, W7, W6, W5, W4, W3, W2, W1.
    now rewrite <- !app_assoc.
  - rewrite console_print, C7, C6, C5, C4, C3, C2, C1. reflexivity.
  - split; [unfold in_range; lia | vm_compute; reflexivity].
  - rewrite regs_print.
    rewrite (regs_send_write 20 0 4 0 _ _ F6 eq_refl).
    rewrite (regs_send_write 12 0 0 100 _ _ F5 eq_refl).
    rewrite (regs_send_write 18 0 191 5 _ _ F4 eq_refl).
    rewrite (regs_send_write 24 0 153 0 _ _ F3 eq_refl).
    rewrite (regs_send_write 6 0 1 144 _ _ F2 eq_refl).
    rewrite (regs_send_write 4 0 0 20 _ _ F1 eq_refl).
    rewrite (regs_send_write 104 0 0 d _ _ F0 eq_refl).
    reflexivity.
  - rewrite regs_print.
    rewrite (regs_send_write 20 0 4 0 _ _ F6 eq_refl).
    rewrite (regs_send_write 12 0 0 100 _ _ F5 eq_refl).
    rewrite (regs_send_write 18 0 191 5 _ _ F4 eq_refl).
    rewrite (regs_send_write 24 0 153 0 _ _ F3 eq_refl).
    rewrite (regs_send_write 6 0 1 144 _ _ F2 eq_refl).
    rewrite (regs_send_write 4 0 0 20 _ _ F1 eq_refl).
    rewrite (regs_send_write 104 0 0 d _ _ F0 eq_refl).
    reflexivity.
Qed.

Lemma testbit_15 n : 0 <= n -> Z.testbit 15 n = (n <? 4).
Proof.
  intros H. change 15 with (Z.ones 4). rewrite Z.testbit_ones by lia.
  destruct (Z.leb_spec 0 n); [reflexivity | lia].
Qed.

(** The two bytes of a 12-bit value, put together again. *)
Lemma payload_12_bits b0 w :
  payload [b0; 0; Z.land (Z.shiftr w 8) 15; w mod 256] = w mod 2 ^ 12.
Proof.
  change 256 with (2 ^ 8). rewrite <- (Z.land_ones w 8) by lia.
  change (Z.ones 8) with 255.
  unfold payload, getitem. cbn [nth].
  apply Z.bits_inj'. intros n Hn.
  rewrite Z.testbit_mod_pow2 by lia.
  rewrite !Z.lor_spec, !Z.land_spec.
  rewrite !Z.shiftl_spec by lia.
  rewrite Z.testbit_0_l. cbn [orb].
  destruct (Z.ltb_spec n 8).
  - rewrite (Z.testbit_neg_r _ (n - 8)) by lia.
    rewrite testbit_255 by lia.
    destruct (Z.ltb_spec n 8); [|lia]. destruct (Z.ltb_spec n 12); [|lia].
    cbn. now rewrite andb_true_r.
  - rewrite !Z.land_spec, Z.shiftr_spec by lia.
    rewrite testbit_255, testbit_15 by lia.
    replace (n - 8 + 8) with n by lia.
    destruct (Z.ltb_spec n 8); [lia|].
    destruct (Z.ltb_spec (n - 8) 4), (Z.ltb_spec n 12); try lia;
      cbn; now rewrite ?andb_true_r, ?andb_false_r, ?orb_false_r.
Qed.

Lemma set_mode_velocity_value s :
  set_mode "velocity" s =
  inr (print "Setting to velocity mode." (send_datagram 20 0 4 2 s)).
Proof. reflexivity. Qed.

Lemma send_datagram_fold b0 b1 b2 b3 s :
  transaction (set_TX 3 b3 (set_TX 2 b2 (set_TX 1 b1 (set_TX 0 b0 s)))) =
  send_datagram b0 b1 b2 b3 s.
Proof. reflexivity. Qed.

Lemma set_TX_print i v line s : set_TX i v (print line s) = print line (set_TX i v s).
Proof. reflexivity. Qed.

Lemma transaction_print line s :
  transaction (print line s) = print line (transaction s).
Proof.
  unfold transaction. cbn [regs TX_buf print].
  now destruct (chip_exchange (regs s) (TX_buf s)) as [r reply].
Qed.

(** X29.  [set_velocity(target_vel)] for a velocity of 12 bits,
    [-2048 <= target_vel < 2048].  It first puts the chip in velocity mode.
    The value it assigns to [TX_buf[3]] is [target_vel] itself, or
    [target_vel + 4096] when negative, not cut to 8 bits: it is a byte only
    for [0 <= target_vel <= 255].  When the assignment stores the low 8
    bits of that value, V_TARGET afterwards holds [target_vel mod 4096], the
    12-bit two's complement of the velocity; when the assignment raises,
    the call raises ValueError. *)
Theorem set_velocity_encoding (store : Z -> option Z) (target_vel : Z)
    (s : state) :
  well_formed s -> -2048 <= target_vel < 2048 ->
  (0 <= unsigned12 target_vel < 256 <-> 0 <= target_vel < 256) /\
  (store (unsigned12 target_vel) = Some (unsigned12 target_vel mod 256) ->
   exists s',
     set_velocity store target_vel s = inr s' /\
     wire s' = wire s ++
       [[20; 0; 4; 2];
        [8; 0; Z.land (Z.shiftr (unsigned12 target_vel) 8) 15;
         unsigned12 target_vel mod 256]] /\
     regs s' V_TARGET = target_vel mod 4096 /\
     regs s' RAMP_MODE = 1026) /\
  (store (unsigned12 target_vel) = None ->
   set_velocity store target_vel s = inl ValueError).
Proof.
  intros Hs Hv.
  assert (U : unsigned12 target_vel =
              if target_vel <? 0 then target_vel + 2 ^ 12 else target_vel)
    by reflexivity.
  split; [|split].
  - rewrite U. change (2 ^ 12) with 4096.
    destruct (Z.ltb_spec target_vel 0); lia.
  - intros St. unfold set_velocity. rewrite set_mode_velocity_value.
    fold (unsigned12 target_vel). lazy zeta. rewrite St.
    set (w := unsigned12 target_vel) in *.
    rewrite !set_TX_print, transaction_print.
    change (Z.lor (Z.shiftl V_TARGET 1) 0) with 8.
    rewrite send_datagram_fold.
    pose proof (send_datagram_wire 20 0 4 2 s Hs) as (W1 & _ & _ & F1).
    pose proof (send_datagram_wire 8 0 (Z.land (Z.shiftr w 8) 15) (w mod 256)
                  _ F1) as (W2 & _ & _ & _).
    eexists. split; [reflexivity|]. rewrite wire_print, regs_print.
    split; [now rewrite W2, W1, <- app_assoc|].
    rewrite !(regs_send_write 8 0 _ _ _ _ F1 eq_refl).
    change (V_TARGET =? Z.shiftr 8 1) with true.
    change (RAMP_MODE =? Z.shiftr 8 1) with false. cbv iota.
    rewrite (regs_send_write 20 0 4 2 s _ Hs eq_refl).
    change (RAMP_MODE =? Z.shiftr 20 1) with true. cbv iota.
    split; [|reflexivity].
    rewrite payload_12_bits. change (2 ^ 12) with 4096. subst w. rewrite U.
    change (2 ^ 12) with 4096.
    destruct (Z.ltb_spec target_vel 0); [|reflexivity].
    rewrite <- (Z.mul_1_l 4096) at 1. apply Z.mod_add. lia.
  - intros St. unfold set_velocity. rewrite set_mode_velocity_value.
    fold (unsigned12 target_vel). lazy zeta. now rewrite St.
Qed.

Lemma set_velocity_encoding_witness :
  (well_formed fresh /\ -2048 <= -5 < 2048) /\
  (exists s',
     set_velocity store_low_byte (-5) fresh = inr s' /\
     wire s' = [[20; 0; 4; 2]; [8; 0; 15; 251]] /\
     regs s' V_TARGET = 4091 /\ regs s' RAMP_MODE = 1026) /\
  set_velocity store_raising (-5) fresh = inl ValueError.
Proof.
  assert (H : well_formed fresh /\ -2048 <= -5 < 2048)
    by (split; [split; reflexivity | lia]).
  split; [exact H|]. split.
  - exact (proj1 (proj2 (set_velocity_encoding store_low_byte (-5) fresh
                           (proj1 H) (proj2 H))) eq_refl).
  - exact (proj2 (proj2 (set_velocity_encoding store_raising (-5) fresh
                           (proj1 H) (proj2 H))) eq_refl).
Defined.

Lemma negative_accel_invalid max_accel pmul pdiv :
  max_accel < 0 -> ~ valid_pair max_accel pmul pdiv.
Proof.
  intros Hm [[Hp _] V]. unfold q_valid in V.
  apply andb_true_iff in V. destruct V as [V _].
  apply negb_true_iff in V.
  assert (L : (q_of max_accel pmul pdiv <= 95 # 100)%Q).
  { unfold q_of.
    assert (P : (0 < inject_Z pmul / inject_Z (- max_accel) * Qpower 2 (4 - pdiv))%Q).
    { apply Qmult_lt_0_compat; [|apply Qpower.Qpower_0_lt; reflexivity].
      apply Qlt_shift_div_l.
      - change 0%Q with (inject_Z 0). rewrite <- Zlt_Qlt. lia.
      - rewrite Qmult_0_l. change 0%Q with (inject_Z 0). rewrite <- Zlt_Qlt. lia. }
    assert (E : (inject_Z pmul / inject_Z max_accel * Qpower 2 (4 - pdiv) ==
                 - (inject_Z pmul / inject_Z (- max_accel) * Qpower 2 (4 - pdiv)))%Q).
    { rewrite inject_Z_opp. field.
      change 0%Q with (inject_Z 0). rewrite inject_Z_injective. lia. }
    rewrite E.
    apply Qle_trans with 0%Q; [|discriminate].
    apply (Qopp_le_compat 0). now apply Qlt_le_weak. }
  apply Qle_bool_iff in L. rewrite L in V. discriminate.
Qed.

(** X26.  [set_accel(0)] raises ZeroDivisionError before anything is sent.
    For a negative [max_accel] no pair is valid, and the call returns after
    writing [0x80] and [14] to PMUL_PDIV and the low 11 bits of [max_accel]
    to A_MAX. *)
Theorem set_accel_not_positive (max_accel : Z) (s : state) :
  well_formed s ->
  (max_accel = 0 -> set_accel max_accel s = inl ZeroDivisionError) /\
  (max_accel < 0 ->
   exists s',
     set_accel max_accel s = inr s' /\
     wire s' = wire s ++
       [[18; 0; 128; 14];
        [12; 0; Z.land (Z.shiftr max_accel 8) 7; Z.land max_accel 255]]).
Proof.
  intros Hs. split.
  - intros ->. reflexivity.
  - intros Hm. unfold set_accel.
    destruct (Z.eqb_spec max_accel 0) as [|_]; [lia|].
    destruct (pmul_loop_spec max_accel 129 128 0) as (pm & pd & v & E & _ & Hv);
      try lia.
    rewrite E. destruct v.
    + now apply negative_accel_invalid in Hv.
    + destruct Hv as [-> ->].
      pose proof (send_datagram_wire 18 0 128 14 s Hs) as (W1 & _ & _ & F1).
      pose proof (send_datagram_wire 12 0 (Z.land (Z.shiftr max_accel 8) 7)
                    (Z.land max_accel 255) _ F1) as (W2 & _ & _ & _).
      eexists. split; [reflexivity|].
      change (Z.lor (Z.shiftl PMUL_PDIV 1) 0) with 18.
      change (Z.lor (Z.shiftl A_MAX 1) 0) with 12.
      change (Z.lor 128 (Z.land 256 127)) with 128.
      change (Z.land 14 15) with 14.
      rewrite W2, W1. now rewrite <- app_assoc.
Qed.

Lemma set_accel_not_positive_witness :
  well_formed fresh /\
  exists s',
    set_accel (-3) fresh = inr s' /\
    wire s' = wire fresh ++
      [[18; 0; 128; 14];
       [12; 0; Z.land (Z.shiftr (-3) 8) 7; Z.land (-3) 255]].
Proof.
  assert (H : well_formed fresh) by (split; reflexivity).
  split; [exact H|].
  exact (proj2 (set_accel_not_positive (-3) fresh H) eq_refl).
Defined.

Lemma byte_land x k : 0 <= k <= 8 -> byte (Z.land x (Z.ones k)).
Proof.
  intros Hk. rewrite Z.land_ones by lia. unfold byte.
  pose proof (Z.mod_pos_bound x (2 ^ k) ltac:(apply Z.pow_pos_nonneg; lia)).
  assert (2 ^ k <= 2 ^ 8) by (apply Z.pow_le_mono_r; lia).
  change (2 ^ 8) with 256 in *. lia.
Qed.

Lemma byte_pmul pmul : byte (Z.lor 128 (Z.land pmul 127)).
Proof.
  change 127 with (Z.ones 7). rewrite Z.land_ones by lia. change (2 ^ 7) with 128.
  pose proof (Z.mod_pos_bound pmul 128 ltac:(lia)) as B.
  generalize dependent (pmul mod 128). intros y B.
  assert (A : forallb (fun y => (0 <=? Z.lor 128 y) && (Z.lor 128 y <? 256))
                (interval 0 128) = true) by (vm_compute; reflexivity).
  rewrite forallb_forall in A.
  specialize (A y (in_interval 0 128 y ltac:(lia))).
  apply andb_true_iff in A. destruct A as [A1 A2]. unfold byte. lia.
Qed.

Lemma byte_divs p r : byte (Z.lor (Z.shiftl (Z.land p 15) 4) (Z.land r 15)).
Proof.
  rewrite divs_byte. unfold byte.
  pose proof (Z.mod_pos_bound p 16 ltac:(lia)).
  pose proof (Z.mod_pos_bound r 16 ltac:(lia)). lia.
Qed.

Lemma datagram_of b0 b1 b2 b3 :
  byte b0 -> byte b1 -> byte b2 -> byte b3 -> datagram [b0; b1; b2; b3].
Proof.
  intros. split; [reflexivity|].
  repeat (constructor; [assumption|]). constructor.
Qed.

Create HintDb datagrams.

#[local] Hint Resolve datagram_of : datagrams.
#[local] Hint Extern 1 (byte (Z.land _ 255)) =>
  apply (byte_land _ 8); lia : datagrams.
#[local] Hint Extern 1 (byte (Z.land _ 7)) =>
  apply (byte_land _ 3); lia : datagrams.
#[local] Hint Extern 1 (byte (Z.land _ 15)) =>
  apply (byte_land _ 4); lia : datagrams.
#[local] Hint Resolve byte_pmul byte_divs : datagrams.
#[local] Hint Extern 2 (byte _) => (unfold byte; cbn; lia) : datagrams.

(** One datagram sent. *)
Lemma send_one b0 b1 b2 b3 s :
  well_formed s -> datagram [b0; b1; b2; b3] ->
  well_formed (send_datagram b0 b1 b2 b3 s) /\
  exists new,
    wire (send_datagram b0 b1 b2 b3 s) = wire s ++ new /\ Forall datagram new.
Proof.
  intros Hs D. destruct (send_datagram_wire b0 b1 b2 b3 s Hs) as (W & _ & _ & F).
  split; [exact F|]. exists [[b0; b1; b2; b3]]. split; [exact W|].
  now constructor.
Qed.

Lemma call_datagrams m s s' :
  well_formed s -> call m s = inr s' ->
  well_formed s' /\ exists new, wire s' = wire s ++ new /\ Forall datagram new.
Proof.
  intros Hs. destruct m; cbn [call].
  - (* set_mode *)
    unfold set_mode.
    repeat match goal with
           | |- context [if ?b then _ else _] => destruct b
           end;
      intros H; injection H as <-;
      try (destruct (send_one 20 0 4 0 s Hs) as (F & new & W & D);
           [auto with datagrams|]);
      try (destruct (send_one 20 0 4 3 s Hs) as (F3 & new3 & W3 & D3);
           [auto with datagrams|]);
      try (destruct (send_one 20 0 4 2 s Hs) as (F2 & new2 & W2 & D2);
           [auto with datagrams|]);
      try (destruct (send_one 20 0 4 1 s Hs) as (F1 & new1 & W1 & D1);
           [auto with datagrams|]);
      (split; [apply well_formed_print; assumption|]);
      rewrite wire_print;
      first [ now exists new | now exists new3 | now exists new2 | now exists new1
            | exists []; now rewrite app_nil_r ].
  - intros H. apply inr_inj in H. subst s'. unfold set_divs.
    apply send_one; auto with datagrams.
  - intros H. apply inr_inj in H. subst s'. unfold set_vmin.
    apply send_one; auto with datagrams.
  - intros H. apply inr_inj in H. subst s'. unfold set_vmax.
    apply send_one; auto with datagrams.
  - (* set_accel *)
    unfold set_accel. destruct (max_accel =? 0); [discriminate|].
    destruct (pmul_loop 129 max_accel 128 0 false) as [[[pm pd] v]|]; [|discriminate].
    lazy zeta. intros H. apply inr_inj in H. subst s'.
    destruct (send_one (Z.lor (Z.shiftl PMUL_PDIV 1) 0) 0
                (Z.lor 128 (Z.land pm 127)) (Z.land pd 15) s Hs)
      as (F1 & new1 & W1 & D1); [auto with datagrams|].
    destruct (send_one (Z.lor (Z.shiftl A_MAX 1) 0) 0
                (Z.land (Z.shiftr max_accel 8) 7) (Z.land max_accel 255) _ F1)
      as (F2 & new2 & W2 & D2); [auto with datagrams|].
    split; [exact F2|]. exists (new1 ++ new2).
    rewrite W2, W1, <- app_assoc. split; [reflexivity | now apply Forall_app].
  - intros H. apply inr_inj in H. subst s'. unfold set_target_pos. lazy zeta.
    apply send_one; auto with datagrams.
  - (* set_zero *)
    intros H. destruct (set_zero_state offset s Hs) as (s1 & E & F & W & _).
    rewrite E in H. apply inr_inj in H. subst s'. split; [exact F|].
    eexists. split; [exact W|].
    repeat (apply Forall_cons; [apply datagram_of; auto with datagrams|]).
    apply Forall_nil.
  - intros H. apply inr_inj in H. subst s'.
    destruct (get_target_pos_value s Hs) as (_ & _ & F & W).
    split; [exact F|]. eexists. split; [exact W|].
    repeat (apply Forall_cons; [apply datagram_of; auto with datagrams|]).
    apply Forall_nil.
  - intros H. apply inr_inj in H. subst s'.
    destruct (arrived_value tolerance s Hs) as (_ & _ & W).
    split.
    + unfold arrived.
      destruct (get_pos_value s Hs) as (_ & _ & F1 & _).
      destruct (get_pos s) as [p s1]. cbn [snd] in F1.
      destruct (get_target_pos_value s1 F1) as (_ & _ & F2 & _).
      destruct (get_target_pos s1) as [t s2]. exact F2.
    + eexists. split; [exact W|]. repeat (apply Forall_cons; [apply datagram_of; auto with datagrams|]).
      apply Forall_nil.
  - intros H. apply inr_inj in H. subst s'.
    destruct (get_pos_value s Hs) as (_ & _ & F & W).
    split; [exact F|]. eexists. split; [exact W|].
    repeat (apply Forall_cons; [apply datagram_of; auto with datagrams|]).
    apply Forall_nil.
Qed.

(** X27.  Whatever the arguments, every datagram that the methods
    [set_mode], [set_divs], [set_vmin], [set_vmax], [set_accel],
    [set_target_pos], [set_zero], [get_target_pos], [arrived] and [get_pos]
    send is made of four values in [range(256)], and the two buffers stay 4
    bytes long: no assignment to a buffer is out of the range of a byte. *)
Theorem datagrams_are_bytes (ms : list method) (s s' : state) :
  well_formed s -> Forall datagram (wire s) -> calls ms s = inr s' ->
  well_formed s' /\ Forall datagram (wire s').
Proof.
  revert s. induction ms as [|m ms IH]; intros s Hs Hw; cbn [calls].
  - intros H. injection H as <-. now split.
  - destruct (call m s) as [e|s1] eqn:C; [discriminate|]. cbn [and_then].
    destruct (call_datagrams m s s1 Hs C) as (F & new & W & D).
    apply IH; [exact F|]. rewrite W. now apply Forall_app.
Qed.

Lemma datagrams_are_bytes_witness :
  (well_formed fresh /\ Forall datagram (wire fresh)) /\
  exists s',
    calls [SetVmax 5000; SetAccel (-3); SetMode "hold"; SetDivs 25 (-7)] fresh
      = inr s' /\
    well_formed s' /\ Forall datagram (wire s').
Proof.
  assert (H : well_formed fresh /\ Forall datagram (wire fresh))
    by (split; [split; reflexivity | constructor]).
  split; [exact H|].
  eexists. split; [reflexivity|].
  exact (datagrams_are_bytes
           [SetVmax 5000; SetAccel (-3); SetMode "hold"; SetDivs 25 (-7)]
           fresh _ (proj1 H) (proj2 H) eq_refl).
Defined.

End DriverSetupProofs.

(* ================================================================== *)
(** ** The actuator: pin levels *)
(* ================================================================== *)

Module ActuatorProofs.
Import Actuator ActuatorSpec.

Lemma perform_spec c s :
  perform c s = mkState (mkPins true true true) (held s ++ drive c).
Proof.
  destruct s as [[e a b] h], c; cbn; rewrite ?app_nil_r; reflexivity.
Qed.

(** X28.  Whatever the pins were, a call of [pen_down], [pen_up] or
    [lock_pen] leaves all three pins high.  The only levels held for the
    0.2 s of a sleep are EN_A high, IN1A low, IN2A high in [pen_down] and
    EN_A high, IN1A high, IN2A low in [pen_up], one sleep per call, in the
    order of the calls: after any calls, the pins are the same whether the
    pen was last lifted or lowered. *)
Theorem pins_after_calls (cs : list call) (s : state) :
  held (perform_all cs s) = held s ++ flat_map drive cs /\
  levels (perform_all cs s) =
    match cs with [] => levels s | _ => mkPins true true true end.
Proof.
  revert s. induction cs as [|c cs IH]; intros s.
  - cbn. now rewrite app_nil_r.
  - cbn [perform_all fold_left flat_map].
    destruct (IH (perform c s)) as [H L]. unfold perform_all in H, L.
    rewrite H, L, perform_spec. cbn [held levels]. split.
    + now rewrite <- app_assoc.
    + now destruct cs.
Qed.

End ActuatorProofs.
